(** * A chained hash table from [int] keys to strings

    Shallow embedding of [include/hash_table.hpp] and of the implementation
    file of [itis::HashTable], followed by the properties of the table that
    the specification states.

    Conventions of the embedding.
    - [int] is a 32-bit signed integer, modelled as a [Z]; arithmetic whose
      result leaves [INT_MIN, INT_MAX] is undefined behaviour in C++ and is
      an explicit [SignedOverflow] error here.
    - [std::vector<Bucket>] is a [list Bucket]; [operator[]] outside of
      [0, size) is undefined behaviour in C++ and is an explicit
      [OutOfBounds] error here.
    - [std::list<std::pair<int, std::string>>] is a list of pairs.
    - [double] is modelled by the exact rationals [Q].  The load factor is
      the rational value of the [double] given to the constructor, and the
      quotient [static_cast<double>(num_keys_) / buckets_.size()] is the
      exact quotient, where the program compares the quotient rounded to the
      nearest [double].  Rounding is monotone and the load factor is a
      [double] itself, so an exact quotient that is at least the load factor
      is still at least the load factor once rounded: when the growth test
      succeeds here it succeeds in the program, and when it fails in the
      program the exact quotient is below the load factor.  The two differ
      only where the exact quotient lies just below a load factor to which it
      rounds (1/10 against the [double] nearest to 0.1): there the program
      grows the table one insertion earlier.  The general properties of
      growth below are therefore stated through what a call leaves behind
      (the capacity is unchanged, or doubled) and in the direction that
      rounding preserves.  A NaN load factor passes both tests of the
      constructor and never lets the table grow; it has no counterpart in
      [Q], and the properties that need the load factor to be a number say
      that it lies in (0, 1].  The scenarios that run the growth test use the
      load factors 1, 1/2 and 3/4 on small tables, for which the [double]
      computation is exact.
    - the [int] parameters (keys, the capacity given to the constructor) are
      any [Z]: what is proved for all of [Z] holds for the [int] values.
    - exceptions thrown by the constructor are [LogicError] results. *)

From Stdlib Require Import ZArith QArith Qround Lia Lqa.
From Stdlib Require Import DecimalString.
From stdpp Require Import base tactics option list strings gmap.

Local Open Scope Z_scope.

(** ** Results of fallible code *)

Inductive error : Type :=
  | LogicError (what : string)
  | OutOfBounds (index size : Z)
  | DivisionByZero
  | SignedOverflow.

Inductive result (A : Type) : Type :=
  | Ok (a : A)
  | Err (e : error).

Arguments Ok {A} a.
Arguments Err {A} e.

#[global] Instance result_ret : MRet result := λ A a, Ok a.
#[global] Instance result_bind : MBind result := λ A B f m,
  match m with
  | Ok a => f a
  | Err e => Err e
  end.
#[global] Instance result_fmap : FMap result := λ A B f m,
  match m with
  | Ok a => Ok (f a)
  | Err e => Err e
  end.

(** ** Machine integers and vectors *)

Definition INT_MIN : Z := - 2 ^ 31.
Definition INT_MAX : Z := 2 ^ 31 - 1.

(** The value of an [int] expression: defined only inside the range. *)
Definition to_int (z : Z) : result Z :=
  if (INT_MIN <=? z) && (z <=? INT_MAX) then Ok z else Err SignedOverflow.

(** [v[index]] on a [std::vector]. *)
Definition at_index {A} (v : list A) (index : Z) : result A :=
  if index <? 0 then Err (OutOfBounds index (Z.of_nat (length v)))
  else match v !! Z.to_nat index with
       | Some x => Ok x
       | None => Err (OutOfBounds index (Z.of_nat (length v)))
       end.

(** [std::optional<T>::has_value()]. *)
Definition has_value {A} (o : option A) : bool :=
  match o with Some _ => true | None => false end.

(** [std::to_string(int)], used by the test-suite to build values. *)
Definition to_string (key : Z) : string :=
  NilZero.string_of_int (Z.to_int key).

Module itis.

Module utils.
(** [inline int hash(int key, int table_size) { return key % table_size; }]
    The C++ remainder truncates towards zero: it is [Z.rem].  It is undefined
    for a zero divisor and for [INT_MIN % -1], whose quotient is not an
    [int]. *)
Definition hash (key table_size : Z) : result Z :=
  if table_size =? 0 then Err DivisionByZero
  else if (key =? INT_MIN) && (table_size =? -1) then Err SignedOverflow
  else Ok (Z.rem key table_size).
End utils.

Definition kGrowthCoefficient : Z := 2.
Definition kDefaultLoadFactor : Q := 3 # 4.

(** [using Bucket = std::list<std::pair<int, std::string>>] *)
Abbreviation Bucket := (list (Z * string)).

Record HashTable : Type := mkHashTable {
  num_keys_ : Z;
  load_factor_ : Q;
  buckets_ : list Bucket
}.

Definition size (t : HashTable) : Z := num_keys_ t.

Definition empty (t : HashTable) : bool := size t =? 0.

(** [static_cast<int>(buckets_.size())]: the cast is exact as long as the
    number of buckets is at most [INT_MAX], which the constructor and the
    growth of [Put] ensure (it is part of [wf] below). *)
Definition capacity (t : HashTable) : Z := Z.of_nat (length (buckets_ t)).

Definition load_factor (t : HashTable) : Q := load_factor_ t.

Definition hash (t : HashTable) (key : Z) : result Z :=
  utils.hash key (Z.of_nat (length (buckets_ t))).

(** The constructor [HashTable::HashTable(int capacity, double load_factor)].
    The load factor is the rational value of the [double]; a NaN, for which
    both comparisons of the second test are false in the program, is not a
    value of [Q]. *)
Definition New (capacity : Z) (load_factor : Q) : result HashTable :=
  if capacity <=? 0 then
    Err (LogicError "hash table capacity must be greater than zero")
  else if Qle_bool load_factor 0 || negb (Qle_bool load_factor 1) then
    Err (LogicError "hash table load factor must be in range [0...1]")
  else
    Ok {| num_keys_ := 0;
          load_factor_ := load_factor;
          buckets_ := replicate (Z.to_nat capacity) [] |}.

(** The scan of one bucket in [Search]: the first pair with the key. *)
Fixpoint find_key (key : Z) (b : Bucket) : option string :=
  match b with
  | [] => None
  | (k, v) :: rest => if k =? key then Some v else find_key key rest
  end.

Definition Search (t : HashTable) (key : Z) : result (option string) :=
  index ← hash t key;
  b ← at_index (buckets_ t) index;
  mret (find_key key b).

Definition ContainsKey (t : HashTable) (key : Z) : result bool :=
  r ← Search t key;
  mret (has_value r).

(** The loop of [Put] on an existing key: every pair with the key gets
    the value (the loop has no [break]). *)
Fixpoint assign_key (key : Z) (value : string) (b : Bucket) : Bucket :=
  match b with
  | [] => []
  | (k, v) :: rest =>
      (if k =? key then (k, value) else (k, v)) :: assign_key key value rest
  end.

(** The inner loop of the growth: the pairs of one old bucket are pushed
    to the back of their new buckets, in order. *)
Fixpoint rehash_bucket (b : Bucket) (newBuckets : list Bucket)
  : result (list Bucket) :=
  match b with
  | [] => mret newBuckets
  | entry :: rest =>
      newHash ← utils.hash entry.1 (Z.of_nat (length newBuckets));
      nb ← at_index newBuckets newHash;
      rehash_bucket rest (<[Z.to_nat newHash := nb ++ [entry]]> newBuckets)
  end.

(** The outer loop of the growth, over the old buckets in index order. *)
Fixpoint rehash (buckets newBuckets : list Bucket) : result (list Bucket) :=
  match buckets with
  | [] => mret newBuckets
  | b :: rest => nb ← rehash_bucket b newBuckets; rehash rest nb
  end.

(** The test [static_cast<double>(num_keys_) / buckets_.size() >= load_factor_].
    [Put] reaches it only after indexing the bucket array, so the divisor is
    not zero there.  The quotient is the exact one; the program rounds it to
    the nearest [double] before the comparison, which can only turn a failing
    test into a succeeding one, and only when the exact quotient rounds to
    the load factor. *)
Definition must_grow (t : HashTable) : bool :=
  Qle_bool (load_factor_ t)
           (inject_Z (num_keys_ t) / inject_Z (Z.of_nat (length (buckets_ t)))).

Definition Put (t : HashTable) (key : Z) (value : string) : result HashTable :=
  index ← hash t key;
  present ← ContainsKey t key;
  t1 ← (if present : bool then
          b ← at_index (buckets_ t) index;
          mret {| num_keys_ := num_keys_ t;
                  load_factor_ := load_factor_ t;
                  buckets_ := <[Z.to_nat index := assign_key key value b]> (buckets_ t) |}
        else
          b ← at_index (buckets_ t) index;
          n ← to_int (num_keys_ t + 1);
          mret {| num_keys_ := n;
                  load_factor_ := load_factor_ t;
                  buckets_ := <[Z.to_nat index := b ++ [(key, value)]]> (buckets_ t) |});
  if must_grow t1 then
    new_size ← to_int (capacity t1 * kGrowthCoefficient);
    newBuckets ← rehash (buckets_ t1) (replicate (Z.to_nat new_size) []);
    mret {| num_keys_ := num_keys_ t1;
            load_factor_ := load_factor_ t1;
            buckets_ := newBuckets |}
  else mret t1.

(** The loop of [Remove]: the first pair with the key is erased and its
    value returned. *)
Fixpoint erase_key (key : Z) (b : Bucket) : option (string * Bucket) :=
  match b with
  | [] => None
  | (k, v) :: rest =>
      if k =? key then Some (v, rest)
      else '(r, rest') ← erase_key key rest; Some (r, (k, v) :: rest')
  end.

Definition Remove (t : HashTable) (key : Z)
  : result (option string * HashTable) :=
  index ← hash t key;
  present ← ContainsKey t key;
  if present : bool then
    b ← at_index (buckets_ t) index;
    match erase_key key b with
    | Some (deletedElem, b') =>
        n ← to_int (num_keys_ t - 1);
        mret (Some deletedElem,
              {| num_keys_ := n;
                 load_factor_ := load_factor_ t;
                 buckets_ := <[Z.to_nat index := b']> (buckets_ t) |})
    | None => mret (None, t)
    end
  else mret (None, t).

Definition keys (t : HashTable) : gset Z :=
  list_to_set (mjoin (buckets_ t)).*1.

Definition values (t : HashTable) : list string :=
  (mjoin (buckets_ t)).*2.

End itis.

Import itis.

(** ** The two halves of [Put]

    [Put] first stores the pair (the [if]/[else] on [ContainsKey]) and then
    runs the growth test on the result.  The halves are named here so that
    they can be specified one at a time; [Put_store_grow] below shows that
    [Put] is exactly one followed by the other. *)

Definition Put_store (t : HashTable) (key : Z) (value : string) : result HashTable :=
  index ← hash t key;
  present ← ContainsKey t key;
  if present : bool then
    b ← at_index (buckets_ t) index;
    mret {| num_keys_ := num_keys_ t;
            load_factor_ := load_factor_ t;
            buckets_ := <[Z.to_nat index := assign_key key value b]> (buckets_ t) |}
  else
    b ← at_index (buckets_ t) index;
    n ← to_int (num_keys_ t + 1);
    mret {| num_keys_ := n;
            load_factor_ := load_factor_ t;
            buckets_ := <[Z.to_nat index := b ++ [(key, value)]]> (buckets_ t) |}.

Definition Put_grow (t1 : HashTable) : result HashTable :=
  if must_grow t1 then
    new_size ← to_int (capacity t1 * kGrowthCoefficient);
    newBuckets ← rehash (buckets_ t1) (replicate (Z.to_nat new_size) []);
    mret {| num_keys_ := num_keys_ t1;
            load_factor_ := load_factor_ t1;
            buckets_ := newBuckets |}
  else mret t1.

(** ** Sequences of operations *)

Inductive op : Type :=
  | OpPut (key : Z) (value : string)
  | OpRemove (key : Z).

(** The key an operation is called with. *)
Definition op_key (o : op) : Z :=
  match o with
  | OpPut key _ => key
  | OpRemove key => key
  end.

Definition step (t : HashTable) (o : op) : result HashTable :=
  match o with
  | OpPut key value => Put t key value
  | OpRemove key => snd <$> Remove t key
  end.

Fixpoint run (t : HashTable) (ops : list op) : result HashTable :=
  match ops with
  | [] => mret t
  | o :: rest => t' ← step t o; run t' rest
  end.

(** [Put] of each pair in turn, as the loops of the test-suite do. *)
Definition put_all (t : HashTable) (kvs : list (Z * string)) : result HashTable :=
  run t ((λ kv, OpPut kv.1 kv.2) <$> kvs).

(** [std::iota] from 0: the keys 0, ..., n-1 that the test-suite inserts, each
    with its decimal string as value. *)
Definition iota (n : nat) : list Z := Z.of_nat <$> seq 0 n.

Definition string_pairs (ks : list Z) : list (Z * string) :=
  (λ k, (k, to_string k)) <$> ks.

(** The bucket array of capacity [C] in which each of the keys 0, ..., n-1
    sits alone in the bucket of its own index. *)
Definition identity_buckets (C n : nat) : list Bucket :=
  (λ j, if decide (j < n)%nat then [(Z.of_nat j, to_string (Z.of_nat j))] else [])
    <$> seq 0 C.

(** A table state is reachable when the constructor, called with an [int]
    capacity, followed by some sequence of [Put] and [Remove] calls, all of
    which return, yields it. *)
Definition reachable_from (capacity : Z) (load_factor : Q) (t : HashTable) : Prop :=
  ∃ t0 ops, capacity ≤ INT_MAX ∧ New capacity load_factor = Ok t0 ∧ run t0 ops = Ok t.

Definition reachable (t : HashTable) : Prop :=
  ∃ capacity load_factor, reachable_from capacity load_factor t.

(** ** The abstract content of a table *)

(** All the pairs, bucket after bucket. *)
Definition entries (t : HashTable) : list (Z * string) := mjoin (buckets_ t).

(** The value bound to a key, wherever it is stored. *)
Definition lookup_key (t : HashTable) (key : Z) : option string :=
  find_key key (entries t).

(** The bucket index of [key] is a valid index of the bucket array: the
    condition under which [buckets_[hash(key)]] is defined. *)
Definition index_ok (t : HashTable) (key : Z) : Prop :=
  0 < capacity t ∧ 0 ≤ Z.rem key (capacity t).

(** Every pair sits in the bucket whose index is its remainder modulo [n]. *)
Definition at_home (n : Z) (bs : list Bucket) : Prop :=
  ∀ (i : nat) b e, bs !! i = Some b → e ∈ b → Z.rem e.1 n = Z.of_nat i.

(** The representation invariant. *)
Record wf (t : HashTable) : Prop := mk_wf {
  wf_capacity : 0 < capacity t ≤ INT_MAX;
  wf_num_keys : num_keys_ t = Z.of_nat (sum_list (length <$> buckets_ t));
  wf_num_keys_int : num_keys_ t ≤ INT_MAX;
  wf_home : at_home (capacity t) (buckets_ t);
  wf_nodup : NoDup (entries t).*1
}.

(** The ratio of keys to buckets is below the load factor, and a single key
    in twice the buckets would be below it too. *)
Definition ratio_inv (load_factor0 : Q) (t : HashTable) : Prop :=
  wf t ∧ load_factor_ t = load_factor0 ∧
  (inject_Z (num_keys_ t) < load_factor0 * inject_Z (capacity t))%Q ∧
  (1 < 2 * inject_Z (capacity t) * load_factor0)%Q.

(** There are fewer keys than buckets, the load factor being at most one. *)
Definition size_inv (t : HashTable) : Prop :=
  wf t ∧ (load_factor_ t <= 1)%Q ∧ num_keys_ t < capacity t.

(** ** The result monad and the primitives *)

Lemma bind_Ok {A B} (m : result A) (f : A → result B) b :
  m ≫= f = Ok b ↔ ∃ a, m = Ok a ∧ f a = Ok b.
Proof.
  destruct m as [a|e]; simpl; split.
  - eauto.
  - by intros (a' & [= ->] & ?).
  - done.
  - by intros (a' & ? & ?).
Qed.

Lemma fmap_Ok {A B} (m : result A) (f : A → B) b :
  f <$> m = Ok b ↔ ∃ a, m = Ok a ∧ b = f a.
Proof.
  destruct m as [a|e]; simpl; split.
  - intros [= <-]. eauto.
  - by intros (a' & [= ->] & ->).
  - done.
  - by intros (a' & ? & ?).
Qed.

Lemma to_int_Ok z n : to_int z = Ok n ↔ n = z ∧ INT_MIN ≤ z ≤ INT_MAX.
Proof.
  unfold to_int.
  destruct (Z.leb_spec INT_MIN z), (Z.leb_spec z INT_MAX); simpl;
    split; try (intros [= <-]); try (intros [-> ?]); try done; lia.
Qed.

Lemma to_int_in_range z : INT_MIN ≤ z ≤ INT_MAX → to_int z = Ok z.
Proof. intros. by apply to_int_Ok. Qed.

Lemma at_index_Ok {A} (v : list A) i x :
  at_index v i = Ok x ↔ 0 ≤ i ∧ v !! Z.to_nat i = Some x.
Proof.
  unfold at_index. destruct (Z.ltb_spec i 0).
  - split; [done | lia].
  - destruct (v !! Z.to_nat i); split; try (intros [= ->]); try (intros [_ [= ->]]);
      try done; naive_solver.
Qed.

Lemma at_index_negative {A} (v : list A) i :
  i < 0 → at_index v i = Err (OutOfBounds i (Z.of_nat (length v))).
Proof. unfold at_index. intros. by destruct (Z.ltb_spec i 0); [|lia]. Qed.

Lemma utils_hash_pos key n : 0 < n → utils.hash key n = Ok (Z.rem key n).
Proof.
  intros Hn. unfold utils.hash.
  destruct (Z.eqb_spec n 0); [lia|]. destruct (Z.eqb_spec n (-1)); [lia|].
  by rewrite andb_false_r.
Qed.

Lemma utils_hash_Ok key (m : nat) h :
  utils.hash key (Z.of_nat m) = Ok h ↔
  Z.of_nat m ≠ 0 ∧ h = Z.rem key (Z.of_nat m).
Proof.
  destruct (decide (Z.of_nat m = 0)) as [Hz|Hnz].
  - unfold utils.hash. rewrite Hz. simpl. split; [done | by intros [? _]].
  - rewrite utils_hash_pos by lia. split.
    + by intros [= <-].
    + by intros [_ ->].
Qed.

Lemma rem_lt_capacity key n : 0 < n → Z.rem key n < n.
Proof.
  intros. pose proof (Z.rem_bound_abs key n). lia.
Qed.

(** ** Buckets *)

Section buckets.
Implicit Types (b : Bucket) (key k : Z) (value v : string).

Lemma find_key_Some_elem key b v : find_key key b = Some v → (key, v) ∈ b.
Proof.
  induction b as [|[k w] b IH]; simpl; [done|].
  destruct (Z.eqb_spec k key) as [->|?].
  - intros [= ->]. left.
  - intros. right. auto.
Qed.

Lemma find_key_None key b : find_key key b = None ↔ key ∉ b.*1.
Proof.
  induction b as [|[k w] b IH]; simpl.
  - split; [intros _; apply not_elem_of_nil | done].
  - rewrite not_elem_of_cons. simpl.
    destruct (Z.eqb_spec k key) as [->|?].
    + split; [done|]. by intros [? _].
    + rewrite IH. split; [by split|]. by intros [_ ?].
Qed.

Lemma find_key_is_Some key b : is_Some (find_key key b) ↔ key ∈ b.*1.
Proof.
  rewrite <-not_eq_None_Some, find_key_None.
  destruct (decide (key ∈ b.*1)); naive_solver.
Qed.

Lemma find_key_app key b1 b2 :
  find_key key (b1 ++ b2) =
    match find_key key b1 with Some v => Some v | None => find_key key b2 end.
Proof.
  induction b1 as [|[k w] b1 IH]; simpl; [done|].
  by destruct (k =? key).
Qed.

Lemma find_key_NoDup key b v :
  NoDup b.*1 → (key, v) ∈ b → find_key key b = Some v.
Proof.
  induction b as [|[k w] b IH]; simpl.
  - intros _ ?%elem_of_nil. done.
  - rewrite NoDup_cons, elem_of_cons. intros [Hk Hnd] [[= -> ->]|Hin].
    + by rewrite Z.eqb_refl.
    + destruct (Z.eqb_spec k key) as [->|?]; [|auto].
      destruct Hk. apply (list_elem_of_fmap_2 fst) in Hin. done.
Qed.

Lemma find_key_Permutation key b1 b2 :
  NoDup b1.*1 → b1 ≡ₚ b2 → find_key key b1 = find_key key b2.
Proof.
  intros Hnd Hp.
  assert (NoDup b2.*1) as Hnd2 by (by rewrite <-Hp).
  destruct (find_key key b1) as [v|] eqn:H1.
  - symmetry. apply find_key_NoDup; [done|].
    rewrite <-Hp. by apply find_key_Some_elem.
  - symmetry. apply find_key_None. rewrite <-Hp. by apply find_key_None.
Qed.

Lemma assign_key_fst key value b : (assign_key key value b).*1 = b.*1.
Proof.
  induction b as [|[k w] b IH]; [done|].
  cbn [assign_key]. rewrite !fmap_cons, IH. by destruct (k =? key).
Qed.

Lemma assign_key_length key value b : length (assign_key key value b) = length b.
Proof. induction b as [|[k w] b IH]; simpl; [done|]. by rewrite IH. Qed.

Lemma find_key_assign_eq key value b :
  find_key key (assign_key key value b) = (λ _, value) <$> find_key key b.
Proof.
  induction b as [|[k w] b IH]; simpl; [done|].
  destruct (Z.eqb_spec k key) as [->|?]; simpl.
  - by rewrite Z.eqb_refl.
  - by destruct (Z.eqb_spec k key).
Qed.

Lemma find_key_assign_ne key k value b :
  k ≠ key → find_key k (assign_key key value b) = find_key k b.
Proof.
  intros Hne. induction b as [|[k' w] b IH]; simpl; [done|].
  destruct (Z.eqb_spec k' key) as [->|?]; simpl.
  - destruct (Z.eqb_spec key k); [congruence | done].
  - by rewrite IH.
Qed.

Lemma assign_key_absent key value b :
  find_key key b = None → assign_key key value b = b.
Proof.
  induction b as [|[k w] b IH]; simpl; [done|].
  destruct (Z.eqb_spec k key); [done|]. intros. by rewrite IH.
Qed.

Lemma erase_key_None key b : erase_key key b = None ↔ find_key key b = None.
Proof.
  induction b as [|[k w] b IH]; simpl; [done|].
  destruct (k =? key); [done|].
  destruct (erase_key key b) as [[r b']|]; simpl.
  - split; [done|]. intros Hf. by apply IH in Hf.
  - split; [|done]. intros _. by apply IH.
Qed.

Lemma erase_key_Some key b v b' :
  erase_key key b = Some (v, b') →
  find_key key b = Some v ∧ b ≡ₚ (key, v) :: b' ∧
  ∀ k, k ≠ key → find_key k b' = find_key k b.
Proof.
  revert b'. induction b as [|[k w] b IH]; simpl; [done|]. intros b'.
  destruct (Z.eqb_spec k key) as [->|Hne].
  - intros [= -> ->]. split_and!; [done..|].
    intros k Hk. by destruct (Z.eqb_spec key k).
  - destruct (erase_key key b) as [[r b'']|]; simpl; [|done].
    intros [= -> <-]. destruct (IH _ eq_refl) as (Hf & Hp & Ho).
    split_and!; [done| |].
    + rewrite Hp. apply Permutation_swap.
    + intros k' Hk'. simpl. rewrite Ho by done. done.
Qed.

Lemma erase_key_NoDup key b v b' :
  erase_key key b = Some (v, b') → NoDup b.*1 →
  NoDup b'.*1 ∧ key ∉ b'.*1.
Proof.
  intros (_ & Hp & _)%erase_key_Some Hnd.
  rewrite Hp, fmap_cons in Hnd. by apply NoDup_cons in Hnd as [? ?].
Qed.

End buckets.

(** ** Bucket arrays *)

Section arrays.
Implicit Types (bs : list Bucket) (b : Bucket) (key k : Z).

Lemma join_insert bs (i : nat) b b' :
  bs !! i = Some b →
  ∃ l r, mjoin bs = l ++ b ++ r ∧ mjoin (<[i:=b']> bs) = l ++ b' ++ r.
Proof.
  intros Hi. exists (mjoin (take i bs)), (mjoin (drop (S i) bs)).
  split.
  - rewrite <-(take_drop_middle bs i b) at 1 by done.
    by rewrite join_app.
  - rewrite insert_take_drop by (by eapply lookup_lt_Some).
    by rewrite join_app.
Qed.

Lemma join_insert_snoc bs (i : nat) b e :
  bs !! i = Some b → mjoin (<[i := b ++ [e]]> bs) ≡ₚ e :: mjoin bs.
Proof.
  intros Hb. destruct (join_insert bs _ b (b ++ [e]) Hb) as (l & r & -> & ->).
  rewrite <-(assoc_L (++) b [e] r). simpl.
  by rewrite !(assoc_L (++) l b), <-Permutation_middle.
Qed.

Lemma at_home_insert n bs (i : nat) b' :
  at_home n bs → (∀ e, e ∈ b' → Z.rem e.1 n = Z.of_nat i) →
  at_home n (<[i:=b']> bs).
Proof.
  intros Hh Hb' j b e Hj He.
  apply list_lookup_insert_Some in Hj.
  destruct Hj as [(<- & <- & _)|(_ & Hj)]; eauto.
Qed.

Lemma at_home_elem n bs e :
  at_home n bs → e ∈ mjoin bs →
  ∃ b, bs !! Z.to_nat (Z.rem e.1 n) = Some b ∧ e ∈ b ∧ 0 ≤ Z.rem e.1 n.
Proof.
  intros Hh (b & He & Hb)%list_elem_of_join.
  apply list_elem_of_lookup in Hb as [i Hi].
  rewrite (Hh i b e Hi He), Nat2Z.id. exists b. split_and!; [done..|lia].
Qed.

Lemma NoDup_bucket bs (i : nat) b :
  NoDup (mjoin bs).*1 → bs !! i = Some b → NoDup b.*1.
Proof.
  intros Hnd Hb.
  destruct (join_insert bs _ b b Hb) as (l & r & Hj & _).
  rewrite Hj, !fmap_app in Hnd.
  apply NoDup_app in Hnd as (_ & _ & Hnd).
  by apply NoDup_app in Hnd as (? & _).
Qed.

(** With every pair at home, the scan of the whole table is the scan of
    the home bucket of the key. *)
Lemma find_key_home n bs key b :
  at_home n bs → NoDup (mjoin bs).*1 →
  bs !! Z.to_nat (Z.rem key n) = Some b →
  find_key key (mjoin bs) = find_key key b.
Proof.
  intros Hh Hnd Hb.
  destruct (find_key key (mjoin bs)) as [v|] eqn:Hf.
  - apply find_key_Some_elem in Hf.
    destruct (at_home_elem _ _ _ Hh Hf) as (b2 & Hb2 & He & _). simpl in *.
    assert (b2 = b) as -> by congruence.
    symmetry. apply find_key_NoDup; [|done]. by eapply NoDup_bucket.
  - symmetry. apply find_key_None. apply find_key_None in Hf.
    intros Hin. destruct Hf.
    apply list_elem_of_fmap in Hin as (e & -> & He).
    apply list_elem_of_fmap. exists e. split; [done|].
    apply list_elem_of_join. exists b. split; [done|].
    by eapply list_elem_of_lookup_2.
Qed.

(** A key that is stored nowhere is found nowhere, whatever its index. *)
Lemma find_key_home_negative n bs key :
  at_home n bs → Z.rem key n < 0 → find_key key (mjoin bs) = None.
Proof.
  intros Hh Hneg. apply find_key_None. intros Hin.
  apply list_elem_of_fmap in Hin as (e & -> & He).
  destruct (at_home_elem _ _ _ Hh He) as (_ & _ & _ & ?). lia.
Qed.

End arrays.

(** ** The growth loops *)

Section growth.
Implicit Types (bs nb : list (list (Z * string))) (b : list (Z * string)).

Lemma rehash_bucket_Ok b nb nb' :
  rehash_bucket b nb = Ok nb' →
  length nb' = length nb ∧
  mjoin nb' ≡ₚ mjoin nb ++ b ∧
  (at_home (Z.of_nat (length nb)) nb → at_home (Z.of_nat (length nb)) nb') ∧
  Forall (λ e, 0 ≤ Z.rem e.1 (Z.of_nat (length nb))) b.
Proof.
  revert nb. induction b as [|e b IH]; intros nb; simpl.
  - intros [= <-]. rewrite app_nil_r. by split_and!.
  - intros (h & [Hn ->]%utils_hash_Ok & (x & [Hpos Hx]%at_index_Ok & Hrec)%bind_Ok)%bind_Ok.
    apply IH in Hrec as (Hlen & Hperm & Hhome & Hall).
    rewrite length_insert in Hlen, Hhome, Hall.
    split_and!.
    + done.
    + rewrite Hperm, join_insert_snoc by done. simpl. apply Permutation_middle.
    + intros Hh. apply Hhome, at_home_insert; [done|].
      intros e' [He'| ->%list_elem_of_singleton]%elem_of_app.
      * by eapply Hh.
      * lia.
    + by constructor.
Qed.

Lemma rehash_bucket_total b nb :
  (0 < length nb)%nat →
  Forall (λ e, 0 ≤ Z.rem e.1 (Z.of_nat (length nb))) b →
  ∃ nb', rehash_bucket b nb = Ok nb'.
Proof.
  intros Hn. revert nb Hn. induction b as [|e b IH]; intros nb Hn Hall; simpl.
  - eauto.
  - apply Forall_cons in Hall as [He Hall].
    rewrite utils_hash_pos by lia. simpl.
    assert (is_Some (nb !! Z.to_nat (Z.rem e.1 (Z.of_nat (length nb))))) as [x Hx].
    { apply lookup_lt_is_Some_2.
      pose proof (rem_lt_capacity e.1 (Z.of_nat (length nb))). lia. }
    assert (at_index nb (Z.rem e.1 (Z.of_nat (length nb))) = Ok x) as ->
      by (by apply at_index_Ok).
    simpl. apply IH; rewrite length_insert; done.
Qed.

Lemma rehash_Ok bs nb nb' :
  rehash bs nb = Ok nb' →
  length nb' = length nb ∧
  mjoin nb' ≡ₚ mjoin nb ++ mjoin bs ∧
  (at_home (Z.of_nat (length nb)) nb → at_home (Z.of_nat (length nb)) nb') ∧
  Forall (λ e, 0 ≤ Z.rem e.1 (Z.of_nat (length nb))) (mjoin bs).
Proof.
  revert nb. induction bs as [|b bs IH]; intros nb; simpl.
  - intros [= <-]. rewrite app_nil_r. by split_and!.
  - intros (nb1 & (Hlen1 & Hperm1 & Hhome1 & Hall1)%rehash_bucket_Ok & Hrec)%bind_Ok.
    apply IH in Hrec as (Hlen & Hperm & Hhome & Hall).
    rewrite Hlen1 in Hlen, Hhome, Hall.
    split_and!.
    + done.
    + by rewrite Hperm, Hperm1, (assoc_L (++)).
    + auto.
    + by apply Forall_app.
Qed.

Lemma rehash_total bs nb :
  (0 < length nb)%nat →
  Forall (λ e, 0 ≤ Z.rem e.1 (Z.of_nat (length nb))) (mjoin bs) →
  ∃ nb', rehash bs nb = Ok nb'.
Proof.
  intros Hn. revert nb Hn. induction bs as [|b bs IH]; intros nb Hn Hall; simpl.
  - eauto.
  - apply Forall_app in Hall as [Hb Hall].
    destruct (rehash_bucket_total b nb Hn Hb) as [nb1 Hnb1]. rewrite Hnb1. simpl.
    apply rehash_bucket_Ok in Hnb1 as (Hlen & _).
    apply IH; rewrite Hlen; done.
Qed.

Lemma at_home_replicate n (m : nat) : at_home n (replicate m []).
Proof.
  intros i b e [-> _]%lookup_replicate He. by apply elem_of_nil in He.
Qed.

Lemma join_replicate_nil {A} (m : nat) : mjoin (replicate m (@nil A)) = [].
Proof. induction m as [|m IH]; simpl; [done|]. done. Qed.

End growth.

(** ** Search *)

Section table.
Implicit Types (t : HashTable) (key k : Z) (value v : string).

Lemma Put_store_grow t key value :
  Put t key value = Put_store t key value ≫= Put_grow.
Proof.
  unfold Put, Put_store, Put_grow.
  destruct (hash t key) as [index|]; simpl; [|done].
  destruct (ContainsKey t key) as [[]|]; simpl; [| |done].
  - by destruct (at_index (buckets_ t) index).
  - destruct (at_index (buckets_ t) index); simpl; [|done].
    by destruct (to_int (num_keys_ t + 1)).
Qed.

Lemma index_ok_bucket t key :
  index_ok t key →
  ∃ b, buckets_ t !! Z.to_nat (Z.rem key (capacity t)) = Some b.
Proof.
  intros [Hc Hr]. apply lookup_lt_is_Some_2.
  pose proof (rem_lt_capacity key _ Hc). unfold capacity in *. lia.
Qed.

Lemma hash_Ok t key index :
  hash t key = Ok index ↔ 0 < capacity t ∧ index = Z.rem key (capacity t).
Proof.
  unfold hash. rewrite utils_hash_Ok. unfold capacity.
  split; intros [? ?]; split; try done; lia.
Qed.

Lemma Search_Ok t key r :
  Search t key = Ok r ↔
  index_ok t key ∧
  ∃ b, buckets_ t !! Z.to_nat (Z.rem key (capacity t)) = Some b ∧ r = find_key key b.
Proof.
  unfold Search, index_ok. rewrite bind_Ok. split.
  - intros (index & [Hc ->]%hash_Ok & (b & [Hr Hb]%at_index_Ok & [= <-])%bind_Ok).
    eauto.
  - intros ([Hc Hr] & b & Hb & ->). exists (Z.rem key (capacity t)).
    split; [by apply hash_Ok|]. apply bind_Ok. exists b.
    split; [by apply at_index_Ok | done].
Qed.

Lemma Search_index_ok t key : index_ok t key ↔ ∃ r, Search t key = Ok r.
Proof.
  split.
  - intros Hok. destruct (index_ok_bucket _ _ Hok) as [b Hb].
    exists (find_key key b). apply Search_Ok. eauto.
  - intros [r (? & _)%Search_Ok]. done.
Qed.

Lemma ContainsKey_Ok t key c :
  ContainsKey t key = Ok c ↔
  ∃ r, Search t key = Ok r ∧ c = has_value r.
Proof.
  unfold ContainsKey. rewrite bind_Ok.
  split; intros (r & ? & Hc); exists r; split; try done.
  - by injection Hc as <-.
  - by rewrite Hc.
Qed.

(** A negative remainder is passed to [operator[]] as it is. *)
Lemma Search_negative t key :
  0 < capacity t → Z.rem key (capacity t) < 0 →
  Search t key = Err (OutOfBounds (Z.rem key (capacity t)) (capacity t)).
Proof.
  intros Hc Hr. unfold Search.
  assert (hash t key = Ok (Z.rem key (capacity t))) as -> by (by apply hash_Ok).
  simpl. by rewrite at_index_negative.
Qed.

End table.

(** ** The representation invariant and the abstract content *)

Section invariant.
Implicit Types (t : HashTable) (key k : Z) (value v : string).

Lemma wf_num_entries t : wf t → num_keys_ t = Z.of_nat (length (entries t)).
Proof. intros Hwf. unfold entries. rewrite length_join. apply Hwf. Qed.

Lemma wf_New capacity load_factor t :
  capacity ≤ INT_MAX → New capacity load_factor = Ok t → wf t.
Proof.
  unfold New. intros Hint. destruct (Z.leb_spec capacity 0); [done|].
  destruct (_ || _); [done|]. intros [= <-].
  split; unfold itis.capacity, entries; simpl.
  - rewrite length_replicate. lia.
  - rewrite <-length_join, join_replicate_nil. done.
  - unfold INT_MAX. lia.
  - apply at_home_replicate.
  - rewrite join_replicate_nil. constructor.
Qed.

Lemma wf_capacity_pos t : wf t → 0 < capacity t.
Proof. intros Hwf. apply Hwf. Qed.

Lemma wf_num_keys_nonneg t : wf t → 0 ≤ num_keys_ t.
Proof. intros Hwf. rewrite (wf_num_keys _ Hwf). lia. Qed.

Lemma wf_nodup_bucket t (i : nat) b :
  wf t → buckets_ t !! i = Some b → NoDup b.*1.
Proof. intros Hwf. apply NoDup_bucket, Hwf. Qed.

(** On a well-formed table [Search] computes the abstract content. *)
Lemma Search_lookup_key t key :
  wf t → index_ok t key → Search t key = Ok (lookup_key t key).
Proof.
  intros Hwf Hok. destruct (index_ok_bucket _ _ Hok) as [b Hb].
  apply Search_Ok. split; [done|]. exists b. split; [done|].
  unfold lookup_key, entries.
  by apply (find_key_home (capacity t)); [apply Hwf..|].
Qed.

Lemma lookup_key_elem t key v :
  wf t → lookup_key t key = Some v ↔ (key, v) ∈ entries t.
Proof.
  intros Hwf. split.
  - apply find_key_Some_elem.
  - apply find_key_NoDup, Hwf.
Qed.

(** Stored keys have a valid bucket index. *)
Lemma lookup_key_index_ok t key v :
  wf t → lookup_key t key = Some v → index_ok t key.
Proof.
  intros Hwf Hl%find_key_Some_elem.
  destruct (at_home_elem _ _ _ (wf_home _ Hwf) Hl) as (_ & _ & _ & ?).
  split; [by apply wf_capacity_pos | done].
Qed.

Lemma Search_Some_lookup_key t key v :
  wf t → Search t key = Ok (Some v) ↔ lookup_key t key = Some v.
Proof.
  intros Hwf. split.
  - intros Hs. assert (index_ok t key) as Hok by (apply Search_index_ok; eauto).
    rewrite (Search_lookup_key _ _ Hwf Hok) in Hs. congruence.
  - intros Hl. rewrite (Search_lookup_key _ _ Hwf); [by rewrite Hl|].
    by eapply lookup_key_index_ok.
Qed.

Lemma Search_None_lookup_key t key :
  wf t → Search t key = Ok None → lookup_key t key = None.
Proof.
  intros Hwf Hs. assert (index_ok t key) as Hok by (apply Search_index_ok; eauto).
  rewrite (Search_lookup_key _ _ Hwf Hok) in Hs. congruence.
Qed.

(** [keys()] and [values()] are snapshots of the content. *)
Lemma elem_of_keys t key : key ∈ keys t ↔ is_Some (lookup_key t key).
Proof.
  unfold keys, lookup_key, entries. rewrite elem_of_list_to_set.
  symmetry. apply find_key_is_Some.
Qed.

Lemma values_length t : wf t → Z.of_nat (length (values t)) = size t.
Proof.
  intros Hwf. unfold values, size. rewrite length_fmap.
  symmetry. by apply wf_num_entries.
Qed.

End invariant.

(** ** Put *)

Section put.
Implicit Types (t : HashTable) (key k : Z) (value v : string).


Lemma Put_store_inv t key value t1 :
  Put_store t key value = Ok t1 ↔
  index_ok t key ∧
  ∃ b, buckets_ t !! Z.to_nat (Z.rem key (capacity t)) = Some b ∧
    match find_key key b with
    | Some _ =>
        t1 = {| num_keys_ := num_keys_ t;
                load_factor_ := load_factor_ t;
                buckets_ := <[Z.to_nat (Z.rem key (capacity t)) :=
                              assign_key key value b]> (buckets_ t) |}
    | None =>
        INT_MIN ≤ num_keys_ t + 1 ≤ INT_MAX ∧
        t1 = {| num_keys_ := num_keys_ t + 1;
                load_factor_ := load_factor_ t;
                buckets_ := <[Z.to_nat (Z.rem key (capacity t)) :=
                              b ++ [(key, value)]]> (buckets_ t) |}
    end.
Proof.
  unfold Put_store. split.
  - intros (index & [Hc ->]%hash_Ok &
            (c & (r & (Hok & b & Hb & ->)%Search_Ok & ->)%ContainsKey_Ok & Hrest)%bind_Ok)%bind_Ok.
    split; [done|]. exists b. split; [done|].
    assert (at_index (buckets_ t) (Z.rem key (capacity t)) = Ok b) as Hat
      by (apply at_index_Ok; split; [apply Hok | done]).
    rewrite Hat in Hrest. simpl in Hrest.
    destruct (find_key key b) as [v0|]; simpl in Hrest.
    + by injection Hrest as <-.
    + apply bind_Ok in Hrest as (n & [-> Hn]%to_int_Ok & [= <-]). done.
  - intros (Hok & b & Hb & Hcase).
    assert (hash t key = Ok (Z.rem key (capacity t))) as ->
      by (apply hash_Ok; split; [apply Hok | done]).
    assert (Search t key = Ok (find_key key b)) as Hs by (apply Search_Ok; eauto).
    assert (at_index (buckets_ t) (Z.rem key (capacity t)) = Ok b) as Hat
      by (apply at_index_Ok; split; [apply Hok | done]).
    unfold ContainsKey. rewrite Hs. simpl. rewrite Hat. simpl.
    destruct (find_key key b) as [v0|]; simpl.
    + by rewrite Hcase.
    + destruct Hcase as [Hn ->]. by rewrite to_int_in_range.
Qed.

Lemma Put_store_capacity t key value t1 :
  Put_store t key value = Ok t1 →
  capacity t1 = capacity t ∧ load_factor_ t1 = load_factor_ t.
Proof.
  intros (_ & b & _ & Hcase)%Put_store_inv.
  destruct (find_key key b); [|destruct Hcase as [_ Hcase]]; subst t1;
    unfold capacity; simpl; by rewrite length_insert.
Qed.

Lemma Put_store_wf t key value t1 :
  wf t → Put_store t key value = Ok t1 → wf t1.
Proof.
  intros Hwf Hst. pose proof (Put_store_capacity _ _ _ _ Hst) as [Hcap _].
  apply Put_store_inv in Hst as (Hok & b & Hb & Hcase).
  destruct (join_insert (buckets_ t) _ b (assign_key key value b) Hb)
    as (l & r & Hj & Hja).
  destruct (join_insert (buckets_ t) _ b (b ++ [(key, value)]) Hb)
    as (l' & r' & Hj' & Hjb).
  pose proof (wf_nodup _ Hwf) as Hnd. pose proof (wf_num_entries _ Hwf) as Hnum.
  unfold entries in Hnd, Hnum.
  destruct (find_key key b) as [v0|] eqn:Hf.
  - subst t1. split; simpl.
    + rewrite Hcap. apply Hwf.
    + rewrite <-length_join, Hja, Hnum, Hj.
      by rewrite !length_app, assign_key_length.
    + apply Hwf.
    + rewrite Hcap. apply at_home_insert; [apply Hwf|].
      intros e He. apply (list_elem_of_fmap_2 fst) in He.
      rewrite assign_key_fst in He. apply list_elem_of_fmap in He as (e' & -> & He').
      by eapply (wf_home _ Hwf).
    + unfold entries. simpl. rewrite Hja, !fmap_app, assign_key_fst.
      by rewrite Hj, !fmap_app in Hnd.
  - destruct Hcase as [Hn ->]. split; simpl.
    + rewrite Hcap. apply Hwf.
    + rewrite <-length_join, Hjb, Hnum, Hj'.
      rewrite !length_app. simpl. lia.
    + lia.
    + rewrite Hcap. apply at_home_insert; [apply Hwf|].
      intros e [He| ->%list_elem_of_singleton]%elem_of_app.
      * by eapply (wf_home _ Hwf).
      * simpl. rewrite Z2Nat.id; [done | apply Hok].
    + unfold entries. simpl. rewrite join_insert_snoc, fmap_cons by done.
      apply NoDup_cons. split; [|done]. simpl.
      apply find_key_None.
      by rewrite (find_key_home (capacity t) _ _ b); [|apply Hwf..|].
Qed.


Lemma lookup_key_bucket t key b :
  wf t → buckets_ t !! Z.to_nat (Z.rem key (capacity t)) = Some b →
  lookup_key t key = find_key key b.
Proof. intros Hwf Hb. by apply (find_key_home (capacity t)); [apply Hwf..|]. Qed.

Lemma Put_store_lookup t key value t1 :
  wf t → Put_store t key value = Ok t1 →
  ∀ k, lookup_key t1 k = if decide (k = key) then Some value else lookup_key t k.
Proof.
  intros Hwf Hst k. pose proof (Put_store_wf _ _ _ _ Hwf Hst) as Hwf1.
  apply Put_store_inv in Hst as (Hok & b & Hb & Hcase).
  destruct (find_key key b) as [v0|] eqn:Hf.
  - subst t1. unfold lookup_key, entries in *. simpl in *.
    destruct (join_insert (buckets_ t) _ b (assign_key key value b) Hb)
      as (l & r & Hj & ->).
    pose proof (wf_nodup _ Hwf) as Hnd. unfold entries in Hnd.
    rewrite Hj, !fmap_app in Hnd. rewrite Hj, !find_key_app.
    destruct (decide (k = key)) as [->|Hne].
    + assert (find_key key l = None) as ->.
      { apply find_key_None. intros Hin.
        apply NoDup_app in Hnd as (_ & Hdisj & _). apply (Hdisj _ Hin).
        apply elem_of_app. left. apply find_key_is_Some. eauto. }
      by rewrite find_key_assign_eq, Hf.
    + by rewrite find_key_assign_ne.
  - destruct Hcase as [_ ->]. unfold lookup_key.
    rewrite (find_key_Permutation k _ ((key, value) :: entries t)).
    + simpl. destruct (Z.eqb_spec key k) as [->|?]; by destruct (decide _).
    + apply Hwf1.
    + unfold entries. simpl. by apply join_insert_snoc.
Qed.

Lemma Put_store_num_keys t key value t1 :
  wf t → Put_store t key value = Ok t1 →
  num_keys_ t1 = num_keys_ t + (if lookup_key t key is Some _ then 0 else 1).
Proof.
  intros Hwf (Hok & b & Hb & Hcase)%Put_store_inv.
  rewrite (lookup_key_bucket _ _ _ Hwf Hb).
  destruct (find_key key b); [|destruct Hcase as [_ Hcase]]; subst t1; simpl; lia.
Qed.

Lemma Put_store_total t key value :
  wf t → index_ok t key →
  (lookup_key t key = None → num_keys_ t < INT_MAX) →
  ∃ t1, Put_store t key value = Ok t1.
Proof.
  intros Hwf Hok Hn. destruct (index_ok_bucket _ _ Hok) as [b Hb].
  rewrite (lookup_key_bucket _ _ _ Hwf Hb) in Hn.
  pose proof (wf_num_keys_nonneg _ Hwf).
  destruct (find_key key b) as [v0|] eqn:Hf.
  - eexists. apply Put_store_inv. split; [done|]. exists b. split; [done|].
    by rewrite Hf.
  - eexists. apply Put_store_inv. split; [done|]. exists b. split; [done|].
    rewrite Hf. split; [|done]. unfold INT_MIN. specialize (Hn eq_refl). lia.
Qed.

(** *** The growth half *)

Lemma Put_grow_inv t1 t' :
  Put_grow t1 = Ok t' ↔
  (must_grow t1 = false ∧ t' = t1) ∨
  (must_grow t1 = true ∧ capacity t1 * 2 ≤ INT_MAX ∧
   ∃ newBuckets,
     rehash (buckets_ t1) (replicate (Z.to_nat (capacity t1 * 2)) []) = Ok newBuckets ∧
     t' = {| num_keys_ := num_keys_ t1;
             load_factor_ := load_factor_ t1;
             buckets_ := newBuckets |}).
Proof.
  unfold Put_grow, kGrowthCoefficient. destruct (must_grow t1).
  - split.
    + intros (n & [-> Hn]%to_int_Ok & (nb & Hnb & [= <-])%bind_Ok)%bind_Ok.
      right. split_and!; [done|lia|eauto].
    + intros [[? _]|(_ & Hn & nb & Hnb & ->)]; [done|].
      rewrite to_int_in_range by (unfold INT_MIN, capacity in *; lia).
      simpl. by rewrite Hnb.
  - split.
    + intros [= <-]. by left.
    + by intros [[_ ->]|[? _]].
Qed.

Lemma Put_grow_spec t1 t' :
  wf t1 → Put_grow t1 = Ok t' →
  wf t' ∧ entries t' ≡ₚ entries t1 ∧
  num_keys_ t' = num_keys_ t1 ∧ load_factor_ t' = load_factor_ t1 ∧
  capacity t' = (if must_grow t1 then capacity t1 * 2 else capacity t1).
Proof.
  intros Hwf [[Hg ->]|(Hg & Hcap & nb & Hnb & ->)]%Put_grow_inv; rewrite Hg.
  - done.
  - apply rehash_Ok in Hnb as (Hlen & Hperm & Hhome & _).
    rewrite length_replicate in Hlen, Hhome.
    rewrite join_replicate_nil in Hperm. simpl in Hperm.
    pose proof (wf_capacity_pos _ Hwf).
    assert (capacity {| num_keys_ := num_keys_ t1; load_factor_ := load_factor_ t1;
                        buckets_ := nb |} = capacity t1 * 2) as Hc.
    { unfold capacity in *. simpl. lia. }
    split_and!; try done.
    split; simpl.
    + rewrite Hc. lia.
    + rewrite <-length_join, Hperm, length_join. apply Hwf.
    + apply Hwf.
    + rewrite Hc, <-(Z2Nat.id (capacity t1 * 2)) by lia.
      apply Hhome, at_home_replicate.
    + unfold entries. simpl. rewrite Hperm. apply Hwf.
Qed.

Lemma Put_grow_lookup t1 t' :
  wf t1 → Put_grow t1 = Ok t' → ∀ k, lookup_key t' k = lookup_key t1 k.
Proof.
  intros Hwf Hg k. apply Put_grow_spec in Hg as (Hwf' & Hperm & _); [|done].
  unfold lookup_key. apply find_key_Permutation; [apply Hwf' | done].
Qed.

Lemma Put_grow_total t1 :
  wf t1 →
  (must_grow t1 = true →
   capacity t1 * 2 ≤ INT_MAX ∧
   Forall (λ e, 0 ≤ Z.rem e.1 (capacity t1 * 2)) (entries t1)) →
  ∃ t', Put_grow t1 = Ok t'.
Proof.
  intros Hwf Hg. pose proof (wf_capacity_pos _ Hwf).
  destruct (must_grow t1) eqn:Hm.
  - destruct (Hg eq_refl) as [Hcap Hall].
    destruct (rehash_total (buckets_ t1) (replicate (Z.to_nat (capacity t1 * 2)) []))
      as [nb Hnb].
    + rewrite length_replicate. lia.
    + rewrite length_replicate, Z2Nat.id by lia. done.
    + eexists. apply Put_grow_inv. right. split_and!; eauto.
  - eexists. apply Put_grow_inv. by left.
Qed.


(** *** The growth test *)

Lemma must_grow_true t :
  0 < capacity t →
  must_grow t = true ↔
  (load_factor_ t * inject_Z (capacity t) <= inject_Z (num_keys_ t))%Q.
Proof.
  intros Hc. unfold must_grow. fold (capacity t). rewrite Qle_bool_iff.
  assert (0 < inject_Z (capacity t))%Q as HcQ by (by rewrite <-(Zlt_Qlt 0)).
  split; intros Hle.
  - apply Qnot_lt_le. intros Hlt.
    apply Qlt_shift_div_r in Hlt; [|done]. by apply Qlt_not_le in Hlt.
  - by apply Qle_shift_div_l.
Qed.

Lemma must_grow_false t :
  0 < capacity t →
  must_grow t = false ↔
  (inject_Z (num_keys_ t) / inject_Z (capacity t) < load_factor_ t)%Q.
Proof.
  intros Hc. unfold must_grow. fold (capacity t).
  destruct (Qle_bool _ _) eqn:Hb.
  - apply Qle_bool_iff in Hb. split; [done|]. intros Hlt.
    by apply Qlt_not_le in Hlt.
  - split; [intros _|done]. apply Qnot_le_lt. intros Hle.
    apply Qle_bool_iff in Hle. congruence.
Qed.

(** *** The whole of [Put] *)

Lemma Put_inv t key value t' :
  Put t key value = Ok t' ↔
  ∃ t1, Put_store t key value = Ok t1 ∧ Put_grow t1 = Ok t'.
Proof. rewrite Put_store_grow. apply bind_Ok. Qed.

Lemma Put_spec t key value t' :
  wf t → Put t key value = Ok t' →
  wf t' ∧
  (∀ k, lookup_key t' k = if decide (k = key) then Some value else lookup_key t k) ∧
  num_keys_ t' = num_keys_ t + (if lookup_key t key is Some _ then 0 else 1) ∧
  load_factor_ t' = load_factor_ t ∧
  capacity t' =
    (if Qle_bool (load_factor_ t) (inject_Z (num_keys_ t') / inject_Z (capacity t))
     then capacity t * 2 else capacity t).
Proof.
  intros Hwf (t1 & Hst & Hg)%Put_inv.
  pose proof (Put_store_wf _ _ _ _ Hwf Hst) as Hwf1.
  pose proof (Put_store_capacity _ _ _ _ Hst) as [Hc1 Hlf1].
  pose proof (Put_grow_spec _ _ Hwf1 Hg) as (Hwf' & _ & Hn & Hlf & Hc).
  split_and!.
  - done.
  - intros k. rewrite (Put_grow_lookup _ _ Hwf1 Hg).
    by apply (Put_store_lookup t key value).
  - rewrite Hn. by apply (Put_store_num_keys t key value).
  - congruence.
  - rewrite Hc, Hn. unfold must_grow. fold (capacity t1). by rewrite Hc1, Hlf1.
Qed.

Lemma Put_entries t key value t' e :
  wf t → Put t key value = Ok t' → e ∈ entries t' →
  e = (key, value) ∨ e ∈ entries t.
Proof.
  intros Hwf HP He. destruct (Put_spec _ _ _ _ Hwf HP) as (Hwf' & Hl & _).
  destruct e as [k v]. apply lookup_key_elem in He; [|done].
  rewrite Hl in He. destruct (decide (k = key)) as [->|?].
  - left. congruence.
  - right. by apply lookup_key_elem.
Qed.

Lemma Put_total t key value :
  wf t → 0 ≤ key → Forall (λ e, 0 ≤ e.1) (entries t) →
  capacity t * 2 ≤ INT_MAX → num_keys_ t < INT_MAX →
  ∃ t', Put t key value = Ok t'.
Proof.
  intros Hwf Hkey Hkeys Hcap Hnum. pose proof (wf_capacity_pos _ Hwf) as Hc.
  destruct (Put_store_total t key value) as [t1 Hst]; [done| |done|].
  { split; [done|]. apply Z.rem_nonneg; lia. }
  pose proof (Put_store_wf _ _ _ _ Hwf Hst) as Hwf1.
  pose proof (Put_store_capacity _ _ _ _ Hst) as [Hc1 _].
  destruct (Put_grow_total t1) as [t' Hg]; [done| |].
  - intros _. rewrite Hc1. split; [done|].
    apply Forall_forall. intros [k v] He. simpl.
    apply Z.rem_nonneg; [lia|].
    apply lookup_key_elem in He; [|done].
    rewrite (Put_store_lookup _ _ _ _ Hwf Hst) in He.
    destruct (decide (k = key)) as [->|?]; [done|].
    apply lookup_key_elem in He; [|done].
    by apply (proj1 (Forall_forall _ _) Hkeys (k, v)).
  - exists t'. apply Put_inv. eauto.
Qed.

End put.

(** ** Remove *)

Section remove.
Implicit Types (t : HashTable) (key k : Z) (value v : string).

Lemma Remove_inv t key r t' :
  Remove t key = Ok (r, t') ↔
  index_ok t key ∧
  ∃ b, buckets_ t !! Z.to_nat (Z.rem key (capacity t)) = Some b ∧
    match erase_key key b with
    | Some (deletedElem, b') =>
        INT_MIN ≤ num_keys_ t - 1 ≤ INT_MAX ∧ r = Some deletedElem ∧
        t' = {| num_keys_ := num_keys_ t - 1;
                load_factor_ := load_factor_ t;
                buckets_ := <[Z.to_nat (Z.rem key (capacity t)) := b']> (buckets_ t) |}
    | None => r = None ∧ t' = t
    end.
Proof.
  unfold Remove. split.
  - intros (index & [Hc ->]%hash_Ok &
            (c & (r0 & (Hok & b & Hb & ->)%Search_Ok & ->)%ContainsKey_Ok & Hrest)%bind_Ok)%bind_Ok.
    split; [done|]. exists b. split; [done|].
    assert (at_index (buckets_ t) (Z.rem key (capacity t)) = Ok b) as Hat
      by (apply at_index_Ok; split; [apply Hok | done]).
    destruct (find_key key b) as [v0|] eqn:Hf; simpl in Hrest.
    + rewrite Hat in Hrest. simpl in Hrest.
      destruct (erase_key key b) as [[d b']|] eqn:He.
      * apply bind_Ok in Hrest as (n & [-> Hn]%to_int_Ok & [= <- <-]). done.
      * apply erase_key_None in He. congruence.
    + apply erase_key_None in Hf. rewrite Hf. by injection Hrest as <- <-.
  - intros (Hok & b & Hb & Hcase).
    assert (hash t key = Ok (Z.rem key (capacity t))) as ->
      by (apply hash_Ok; split; [apply Hok | done]).
    assert (Search t key = Ok (find_key key b)) as Hs by (apply Search_Ok; eauto).
    assert (at_index (buckets_ t) (Z.rem key (capacity t)) = Ok b) as Hat
      by (apply at_index_Ok; split; [apply Hok | done]).
    unfold ContainsKey. rewrite Hs. simpl.
    destruct (erase_key key b) as [[d b']|] eqn:He.
    + destruct Hcase as (Hn & -> & ->).
      destruct (erase_key_Some _ _ _ _ He) as (-> & _). simpl.
      rewrite Hat. simpl. rewrite He. by rewrite to_int_in_range.
    + destruct Hcase as [-> ->]. apply erase_key_None in He. by rewrite He.
Qed.

(** Replacing a bucket by one with the same scan for [k] does not change
    what [Search] returns for [k], errors included. *)
Lemma Search_insert t (i : nat) b b' n k :
  buckets_ t !! i = Some b → find_key k b' = find_key k b →
  Search {| num_keys_ := n; load_factor_ := load_factor_ t;
            buckets_ := <[i := b']> (buckets_ t) |} k = Search t k.
Proof.
  intros Hb Hf. unfold Search, hash, utils.hash. simpl. rewrite length_insert.
  destruct (_ =? 0); simpl; [done|]. destruct (_ && _); simpl; [done|].
  unfold at_index. rewrite length_insert. destruct (_ <? 0); [done|].
  rewrite list_lookup_insert. case_decide as Hi; [|done].
  destruct Hi as [<- _]. rewrite Hb. simpl. by rewrite Hf.
Qed.

Lemma Remove_spec t key r t' :
  wf t → Remove t key = Ok (r, t') →
  wf t' ∧ r = lookup_key t key ∧
  (∀ k, lookup_key t' k = if decide (k = key) then None else lookup_key t k) ∧
  num_keys_ t' = num_keys_ t - (if r is Some _ then 1 else 0) ∧
  load_factor_ t' = load_factor_ t ∧ capacity t' = capacity t.
Proof.
  intros Hwf (Hok & b & Hb & Hcase)%Remove_inv.
  pose proof (lookup_key_bucket _ _ _ Hwf Hb) as Hlk.
  destruct (erase_key key b) as [[d b']|] eqn:He.
  - destruct Hcase as (Hn & -> & ->).
    destruct (erase_key_Some _ _ _ _ He) as (Hf & Hperm & Hother).
    destruct (join_insert (buckets_ t) _ b b' Hb) as (l & r & Hj & Hj').
    assert (entries t ≡ₚ (key, d) :: l ++ b' ++ r) as Hpe.
    { unfold entries. rewrite Hj, Hperm. simpl.
      by rewrite <-Permutation_middle. }
    pose proof (wf_nodup _ Hwf) as Hnd. rewrite Hpe, fmap_cons in Hnd.
    apply NoDup_cons in Hnd as [Hnotin Hnd]. simpl in Hnotin.
    assert (wf {| num_keys_ := num_keys_ t - 1; load_factor_ := load_factor_ t;
                  buckets_ := <[Z.to_nat (Z.rem key (capacity t)) := b']> (buckets_ t) |})
      as Hwf'.
    { assert (capacity {| num_keys_ := num_keys_ t - 1; load_factor_ := load_factor_ t;
                  buckets_ := <[Z.to_nat (Z.rem key (capacity t)) := b']> (buckets_ t) |}
              = capacity t) as Hc
        by (unfold capacity at 1 3; simpl; by rewrite length_insert).
      split; rewrite ?Hc; unfold entries; simpl.
      - apply Hwf.
      - rewrite <-length_join, Hj'. rewrite (wf_num_entries _ Hwf), Hpe. simpl. lia.
      - lia.
      - apply at_home_insert; [apply Hwf|]. intros e He'.
        apply (wf_home _ Hwf _ b); [done|]. rewrite Hperm. by right.
      - by rewrite Hj'. }
    split_and!; try done.
    + congruence.
    + intros k. unfold lookup_key at 1. unfold entries. simpl. rewrite Hj'.
      destruct (decide (k = key)) as [->|Hne].
      * by apply find_key_None.
      * unfold lookup_key. rewrite (find_key_Permutation k _ _ (wf_nodup _ Hwf) Hpe).
        simpl. by destruct (Z.eqb_spec key k).
    + unfold capacity. simpl. by rewrite length_insert.
  - destruct Hcase as [-> ->]. apply erase_key_None in He.
    split_and!; try done.
    + congruence.
    + intros k. destruct (decide (k = key)) as [->|]; [congruence | done].
    + simpl. lia.
Qed.

Lemma Remove_total t key :
  wf t → index_ok t key → ∃ r t', Remove t key = Ok (r, t').
Proof.
  intros Hwf Hok. destruct (index_ok_bucket _ _ Hok) as [b Hb].
  destruct (erase_key key b) as [[d b']|] eqn:He.
  - do 2 eexists. apply Remove_inv. split; [done|]. exists b. split; [done|].
    rewrite He. split_and!; [| |done..].
    + pose proof (wf_num_keys_nonneg _ Hwf). unfold INT_MIN. lia.
    + pose proof (wf_num_keys_int _ Hwf). lia.
  - do 2 eexists. apply Remove_inv. split; [done|]. exists b. split; [done|].
    by rewrite He.
Qed.

(** The frame of [Remove], on any table state. *)
Lemma Remove_frame t key r t' :
  Remove t key = Ok (r, t') →
  capacity t' = capacity t ∧ ∀ k, k ≠ key → Search t' k = Search t k.
Proof.
  intros (Hok & b & Hb & Hcase)%Remove_inv.
  destruct (erase_key key b) as [[d b']|] eqn:He.
  - destruct Hcase as (_ & _ & ->). split.
    + unfold capacity. simpl. by rewrite length_insert.
    + intros k Hk. apply (Search_insert t _ b); [done|].
      by apply (erase_key_Some _ _ _ _ He).
  - by destruct Hcase as [_ ->].
Qed.

End remove.

(** ** Sequences of operations *)

Section sequences.
Implicit Types (t : HashTable) (key k : Z) (value v : string).

Lemma step_wf t o t' : wf t → step t o = Ok t' → wf t'.
Proof.
  intros Hwf. destruct o as [key value|key]; simpl.
  - intros HP. by apply (Put_spec _ _ _ _ Hwf HP).
  - intros ([r t''] & HR & ->)%fmap_Ok. by apply (Remove_spec _ _ _ _ Hwf HR).
Qed.

Lemma step_load_factor t o t' :
  wf t → step t o = Ok t' → load_factor_ t' = load_factor_ t.
Proof.
  intros Hwf. destruct o as [key value|key]; simpl.
  - intros HP. by apply (Put_spec _ _ _ _ Hwf HP).
  - intros ([r t''] & HR & ->)%fmap_Ok. by apply (Remove_spec _ _ _ _ Hwf HR).
Qed.

Lemma run_app t ops1 ops2 :
  run t (ops1 ++ ops2) = run t ops1 ≫= λ t1, run t1 ops2.
Proof.
  revert t. induction ops1 as [|o ops1 IH]; intros t; simpl; [done|].
  destruct (step t o); simpl; [apply IH | done].
Qed.

Lemma run_wf t ops t' : wf t → run t ops = Ok t' → wf t'.
Proof.
  revert t. induction ops as [|o ops IH]; intros t Hwf; simpl.
  - by intros [= <-].
  - intros (t1 & Hst & Hrun)%bind_Ok. eauto using step_wf.
Qed.

Lemma run_load_factor t ops t' :
  wf t → run t ops = Ok t' → load_factor_ t' = load_factor_ t.
Proof.
  revert t. induction ops as [|o ops IH]; intros t Hwf; simpl.
  - by intros [= <-].
  - intros (t1 & Hst & Hrun)%bind_Ok.
    rewrite (IH t1), (step_load_factor t o); eauto using step_wf.
Qed.

Lemma reachable_from_wf capacity load_factor t :
  reachable_from capacity load_factor t → wf t.
Proof.
  intros (t0 & ops & Hint & Hnew & Hrun).
  eapply run_wf; [|done]. by eapply wf_New.
Qed.

Lemma reachable_wf t : reachable t → wf t.
Proof. intros (c & lf & Hr). by eapply reachable_from_wf. Qed.

Lemma New_inv capacity load_factor t :
  New capacity load_factor = Ok t ↔
  0 < capacity ∧ (0 < load_factor)%Q ∧ (load_factor <= 1)%Q ∧
  t = {| num_keys_ := 0; load_factor_ := load_factor;
         buckets_ := replicate (Z.to_nat capacity) [] |}.
Proof.
  unfold New. destruct (Z.leb_spec capacity 0).
  - split; [done|]. intros [? _]. lia.
  - destruct (Qle_bool load_factor 0) eqn:Hlo; simpl.
    + apply Qle_bool_iff in Hlo. split; [done|].
      intros (_ & Hlt & _). by apply Qlt_not_le in Hlt.
    + assert (0 < load_factor)%Q.
      { apply Qnot_le_lt. intros Hle. apply Qle_bool_iff in Hle. congruence. }
      destruct (Qle_bool load_factor 1) eqn:Hhi; simpl.
      * apply Qle_bool_iff in Hhi. split; [by intros [= <-]|]. by intros (_ & _ & _ & ->).
      * split; [done|]. intros (_ & _ & Hle & _).
        apply Qle_bool_iff in Hle. congruence.
Qed.

Lemma New_capacity capacity load_factor t :
  New capacity load_factor = Ok t →
  itis.capacity t = capacity ∧ num_keys_ t = 0 ∧ load_factor_ t = load_factor ∧
  entries t = [].
Proof.
  intros (Hc & _ & _ & ->)%New_inv. unfold itis.capacity, entries. simpl.
  rewrite length_replicate, join_replicate_nil. split_and!; try done. lia.
Qed.

End sequences.

(** * The properties stated by the specification *)

(** ** Construction *)

(** Claim C6.  For every capacity greater than zero and every load factor
    in (0, 1] the constructor returns a table that is empty and whose
    capacity is the requested one; for a capacity that is not positive it
    throws the capacity error, and for a load factor that is not positive or
    is greater than one it throws too (the load-factor error, unless the
    capacity is not positive either, in which case the capacity test comes
    first): no table is produced. *)
Theorem New_validity (capacity : Z) (load_factor : Q) :
  (0 < capacity → (0 < load_factor)%Q → (load_factor <= 1)%Q →
   ∃ t, New capacity load_factor = Ok t ∧
        empty t = true ∧ itis.capacity t = capacity) ∧
  (capacity ≤ 0 →
   New capacity load_factor =
     Err (LogicError "hash table capacity must be greater than zero")) ∧
  ((load_factor <= 0)%Q ∨ (1 < load_factor)%Q →
   New capacity load_factor =
     Err (LogicError (if capacity <=? 0
                      then "hash table capacity must be greater than zero"
                      else "hash table load factor must be in range [0...1]"))).
Proof.
  split_and!.
  - intros Hc Hlo Hhi. eexists. split.
    + apply New_inv. by split_and!.
    + unfold empty, size, itis.capacity. simpl. rewrite length_replicate.
      split; [done | lia].
  - intros Hc. unfold New. by destruct (Z.leb_spec capacity 0); [|lia].
  - intros Hlf. unfold New. destruct (capacity <=? 0); [done|].
    destruct Hlf as [Hlo|Hhi].
    + apply Qle_bool_iff in Hlo. by rewrite Hlo.
    + destruct (Qle_bool load_factor 1) eqn:Hle.
      * apply Qle_bool_iff in Hle. by apply Qlt_not_le in Hhi.
      * by rewrite orb_true_r.
Qed.

Lemma New_validity_witness :
  (∃ t, New 4 kDefaultLoadFactor = Ok t ∧ empty t = true ∧ capacity t = 4) ∧
  New (-10) kDefaultLoadFactor =
    Err (LogicError "hash table capacity must be greater than zero") ∧
  New 4 (101 # 100) =
    Err (LogicError "hash table load factor must be in range [0...1]") ∧
  New 4 0 =
    Err (LogicError "hash table load factor must be in range [0...1]").
Proof.
  split_and!.
  - apply (proj1 (New_validity 4 kDefaultLoadFactor)).
    + lia.
    + reflexivity.
    + unfold Qle. simpl. lia.
  - apply (proj1 (proj2 (New_validity (-10) kDefaultLoadFactor))). lia.
  - apply (proj2 (proj2 (New_validity 4 (101 # 100)))). right. reflexivity.
  - apply (proj2 (proj2 (New_validity 4 0))). left. unfold Qle. simpl. lia.
Defined.

(** ** Membership *)

(** Claim C8.  On every table state and for every key, [ContainsKey] is
    [Search(key).has_value()]: it returns true exactly when [Search] yields
    a value, false exactly when [Search] yields none, and it has no result
    exactly when [Search] has none. *)
Theorem ContainsKey_Search_equivalence (t : HashTable) (key : Z) :
  ContainsKey t key = has_value <$> Search t key ∧
  (ContainsKey t key = Ok true ↔ ∃ v, Search t key = Ok (Some v)) ∧
  (ContainsKey t key = Ok false ↔ Search t key = Ok None).
Proof.
  unfold ContainsKey. destruct (Search t key) as [[v|]|e]; simpl.
  - split_and!; [done| |]; split; intros H; try done. by exists v.
  - split_and!; [done| |]; split; intros H; try done. by destruct H.
  - split_and!; [done| |]; split; intros H; try done. by destruct H.
Qed.

(** ** The representation invariant *)

(** Claim C9.  In every table state reached from the constructor by [Put]
    and [Remove] calls, the key count is the sum of the bucket lengths, the
    keys of a bucket are pairwise distinct, and a stored key sits in the
    bucket whose index is the hash of the key for the current capacity, so
    that no key is in two buckets. *)
Theorem reachable_invariant (t : HashTable) :
  reachable t →
  num_keys_ t = Z.of_nat (sum_list (length <$> buckets_ t)) ∧
  (∀ (i : nat) b, buckets_ t !! i = Some b → NoDup b.*1) ∧
  (∀ (i : nat) b key,
     buckets_ t !! i = Some b → key ∈ b.*1 → hash t key = Ok (Z.of_nat i)) ∧
  (∀ (i j : nat) b b' key,
     buckets_ t !! i = Some b → buckets_ t !! j = Some b' →
     key ∈ b.*1 → key ∈ b'.*1 → i = j).
Proof.
  intros Hwf%reachable_wf.
  assert (∀ (i : nat) b key, buckets_ t !! i = Some b → key ∈ b.*1 →
            Z.rem key (capacity t) = Z.of_nat i) as Hhome.
  { intros i b key Hb (e & -> & He)%list_elem_of_fmap.
    by apply (wf_home _ Hwf i b). }
  split_and!.
  - apply Hwf.
  - intros i b. by apply wf_nodup_bucket.
  - intros i b key Hb Hkey. apply hash_Ok.
    split; [by apply wf_capacity_pos | symmetry; eauto].
  - intros i j b b' key Hb Hb' Hkey Hkey'.
    apply Nat2Z.inj. by rewrite <-(Hhome i b key), <-(Hhome j b' key).
Qed.

Lemma reachable_invariant_witness :
  let t := {| num_keys_ := 3; load_factor_ := 1;
              buckets_ := [[(0, "0"); (4, "4")]; []; [(6, "6")]; []] |} in
  num_keys_ t = Z.of_nat (sum_list (length <$> buckets_ t)) ∧
  (∀ (i : nat) b, buckets_ t !! i = Some b → NoDup b.*1) ∧
  (∀ (i : nat) b key,
     buckets_ t !! i = Some b → key ∈ b.*1 → hash t key = Ok (Z.of_nat i)) ∧
  (∀ (i j : nat) b b' key,
     buckets_ t !! i = Some b → buckets_ t !! j = Some b' →
     key ∈ b.*1 → key ∈ b'.*1 → i = j).
Proof.
  apply reachable_invariant.
  exists 4, 1%Q, {| num_keys_ := 0; load_factor_ := 1; buckets_ := [[]; []; []; []] |},
    [OpPut 0 "0"; OpPut 2 "2"; OpPut 4 "4"; OpRemove 2; OpPut 6 "6"].
  split_and!.
  - vm_compute. discriminate.
  - reflexivity.
  - reflexivity.
Defined.

(** ** Remove *)

(** Claim C10.  A call of [Remove] that returns leaves the capacity as it
    was and leaves the result of [Search] for every other key as it was;
    and the call does return on every well-formed table for every key whose
    bucket index is in range. *)
Theorem Remove_preserves_others (t : HashTable) (key : Z) :
  (∀ r t', Remove t key = Ok (r, t') →
     capacity t' = capacity t ∧
     ∀ key', key' ≠ key → Search t' key' = Search t key') ∧
  (wf t → index_ok t key → ∃ r t', Remove t key = Ok (r, t')).
Proof.
  split.
  - intros r t'. apply Remove_frame.
  - apply Remove_total.
Qed.

Lemma Remove_preserves_others_witness :
  let t := {| num_keys_ := 3; load_factor_ := 1;
              buckets_ := [[(0, "0"); (4, "4")]; []; [(6, "6")]; []] |} in
  let t' := {| num_keys_ := 2; load_factor_ := 1;
               buckets_ := [[(4, "4")]; []; [(6, "6")]; []] |} in
  Remove t 0 = Ok (Some "0", t') ∧
  capacity t' = capacity t ∧
  ∀ key', key' ≠ 0 → Search t' key' = Search t key'.
Proof.
  split; [reflexivity|].
  apply (proj1 (Remove_preserves_others _ 0) (Some "0")). reflexivity.
Defined.

(** Claim C7 (refuted by the code).  The claim is that on every table state
    [Remove] of a key that is not present returns the absent-value result and
    leaves the size as it was.  On the empty table of capacity 2 built with
    the default load factor, as in the scenario of the claim, [Remove(5)]
    does so, but [Remove(-1)] indexes the bucket array at [-1 % 2 = -1]: the
    call has no result.  The key -1 is not present: the table holds
    nothing. *)
Theorem Remove_absent_key_fails :
  ∃ t, New 2 kDefaultLoadFactor = Ok t ∧
    size t = 0 ∧ entries t = [] ∧
    Remove t 5 = Ok (None, t) ∧
    Remove t (-1) = Err (OutOfBounds (-1) 2).
Proof. eexists. split_and!; reflexivity. Qed.

(** ** Totality *)

(** Every operation that indexes the bucket array is undefined on a key
    whose remainder modulo the capacity is negative. *)
Lemma negative_remainder_out_of_bounds (t : HashTable) (key : Z) (value : string) :
  0 < capacity t → Z.rem key (capacity t) < 0 →
  let e := OutOfBounds (Z.rem key (capacity t)) (capacity t) in
  Search t key = Err e ∧ ContainsKey t key = Err e ∧
  Put t key value = Err e ∧ Remove t key = Err e.
Proof.
  intros Hc Hr e.
  assert (Search t key = Err e) as Hs by (by apply Search_negative).
  assert (hash t key = Ok (Z.rem key (capacity t))) as Hh by (by apply hash_Ok).
  unfold Put, Remove, ContainsKey. rewrite Hh, Hs. done.
Qed.

(** The operations are defined on the keys whose bucket index is in range
    (in particular on all non-negative keys), as long as [Put] does not
    overflow an [int]. *)
Lemma in_range_total (t : HashTable) (key : Z) (value : string) :
  wf t → index_ok t key →
  (∃ r, Search t key = Ok r) ∧ (∃ c, ContainsKey t key = Ok c) ∧
  (∃ r t', Remove t key = Ok (r, t')) ∧
  (0 ≤ key → Forall (λ e, 0 ≤ e.1) (entries t) →
   capacity t * 2 ≤ INT_MAX → num_keys_ t < INT_MAX →
   ∃ t', Put t key value = Ok t').
Proof.
  intros Hwf Hok.
  assert (∃ r, Search t key = Ok r) as [r Hr] by (by apply Search_index_ok).
  split_and!.
  - eauto.
  - exists (has_value r). apply ContainsKey_Ok. eauto.
  - by apply Remove_total.
  - by apply Put_total.
Qed.

(** Claim C1 (refuted by the code).  The claim is that no operation fails
    for any key, negative keys included.  On the table of capacity 4 with
    the default load factor, [Search], [ContainsKey], [Put] and [Remove] of
    the key -1 all index the bucket array at -1; and the key -4, which is
    stored in bucket 0, is rehashed to index -4 of the doubled array by the
    [Put] that makes the table grow.  The accessors have no failing case. *)
Theorem negative_key_fails :
  ∃ t, New 4 kDefaultLoadFactor = Ok t ∧
    Search t (-1) = Err (OutOfBounds (-1) 4) ∧
    ContainsKey t (-1) = Err (OutOfBounds (-1) 4) ∧
    Put t (-1) "" = Err (OutOfBounds (-1) 4) ∧
    Remove t (-1) = Err (OutOfBounds (-1) 4) ∧
    (∃ t1 t2, Put t (-4) "a" = Ok t1 ∧ Put t1 1 "b" = Ok t2 ∧
              Put t2 2 "c" = Err (OutOfBounds (-4) 8)).
Proof.
  eexists. split; [reflexivity|].
  split_and!; try reflexivity.
  do 2 eexists. split_and!; reflexivity.
Qed.

(** ** Put on a stored key *)




(** ** The load-factor bound *)

Section load_factor_bound.
Variable load_factor0 : Q.

Local Ltac inject_consts :=
  change (inject_Z 0) with 0%Q in *;
  change (inject_Z 1) with 1%Q in *;
  change (inject_Z 2) with 2%Q in *;
  change (inject_Z (-1)) with (-1)%Q in *.

Lemma ratio_inv_New capacity0 t :
  (1 < 2 * inject_Z capacity0 * load_factor0)%Q →
  capacity0 ≤ INT_MAX → New capacity0 load_factor0 = Ok t → ratio_inv load_factor0 t.
Proof.
  intros first_insert_fits Hint HN. pose proof (wf_New _ _ _ Hint HN) as Hwf.
  destruct (New_capacity _ _ _ HN) as (Hc & Hn & Hlf & _).
  apply New_inv in HN as (Hpos & Hlo & _).
  rewrite <-Hc in Hpos, first_insert_fits.
  split_and!; try done. rewrite Hn.
  rewrite (Zlt_Qlt 0) in Hpos. by apply Qmult_lt_0_compat.
Qed.

Lemma ratio_inv_step t o t' : ratio_inv load_factor0 t → step t o = Ok t' → ratio_inv load_factor0 t'.
Proof.
  intros (Hwf & Hlf & Hr & Hfit) Hst.
  pose proof (step_wf _ _ _ Hwf Hst) as Hwf'.
  pose proof (step_load_factor _ _ _ Hwf Hst) as Hlf'.
  pose proof (wf_num_keys_nonneg _ Hwf) as Hn0.
  pose proof (wf_capacity_pos _ Hwf) as Hc0. rewrite (Zlt_Qlt 0) in Hc0.
  split_and!; [done|congruence|..]; destruct o as [key value|key]; simpl in Hst.
  - destruct (Put_spec _ _ _ _ Hwf Hst) as (_ & _ & Hn & _ & Hc).
    rewrite Hlf in Hc. destruct (Qle_bool _ _) eqn:Hg.
    + apply Qle_bool_iff in Hg. rewrite Hc, inject_Z_mult.
      assert (load_factor0 * inject_Z (capacity t) <= inject_Z (num_keys_ t'))%Q as Hge.
      { apply Qnot_lt_le. intros Hlt.
        apply Qlt_shift_div_r in Hlt; [|done]. by apply Qlt_not_le in Hlt. }
      destruct (lookup_key t key).
      * replace (num_keys_ t') with (num_keys_ t) in * by lia. inject_consts. lra.
      * rewrite Hn, inject_Z_plus in *.
        assert (num_keys_ t = 0 ∨ 1 ≤ num_keys_ t) as [->|Hge1] by lia.
        -- inject_consts. lra.
        -- rewrite Zle_Qle in Hge1. inject_consts. lra.
    + rewrite Hc. apply Qnot_le_lt. intros Hle.
      apply Qle_shift_div_l in Hle; [|done].
      apply Qle_bool_iff in Hle. congruence.
  - apply fmap_Ok in Hst as ([r t''] & HR & ->).
    destruct (Remove_spec _ _ _ _ Hwf HR) as (_ & _ & _ & Hn & _ & Hc). simpl.
    rewrite Hc, Hn. destruct r; [|by rewrite Z.sub_0_r].
    unfold Z.sub. rewrite inject_Z_plus, inject_Z_opp. inject_consts. lra.
  - destruct (Put_spec _ _ _ _ Hwf Hst) as (_ & _ & _ & _ & Hc).
    rewrite Hc. destruct (Qle_bool _ _); [|done].
    rewrite inject_Z_mult. inject_consts. lra.
  - apply fmap_Ok in Hst as ([r t''] & HR & ->).
    destruct (Remove_spec _ _ _ _ Hwf HR) as (_ & _ & _ & _ & _ & Hc). simpl.
    by rewrite Hc.
Qed.

Lemma ratio_inv_run t ops t' : ratio_inv load_factor0 t → run t ops = Ok t' → ratio_inv load_factor0 t'.
Proof.
  revert t. induction ops as [|o ops IH]; intros t Hinv; simpl.
  - by intros [= <-].
  - intros (t1 & Hst & Hrun)%bind_Ok. eauto using ratio_inv_step.
Qed.

End load_factor_bound.

(** Claim C3 as stated fails: a [Put] doubles the capacity once, which is
    not enough when the load factor is small.  With capacity 1 and load
    factor 1/2 the first insertion leaves 1 key in 2 buckets: the ratio is
    the load factor, not less. *)
Lemma insert_can_reach_load_factor :
  ¬ (∀ capacity load_factor t key value t',
       reachable_from capacity load_factor t →
       ContainsKey t key = Ok false → Put t key value = Ok t' →
       (inject_Z (size t') / inject_Z (itis.capacity t') < load_factor)%Q).
Proof.
  intros H.
  specialize (H 1 (1 # 2)%Q
                {| num_keys_ := 0; load_factor_ := 1 # 2; buckets_ := [[]] |}
                0 "0"
                {| num_keys_ := 1; load_factor_ := 1 # 2; buckets_ := [[(0, "0")]; []] |}).
  assert (inject_Z 1 / inject_Z 2 < 1 # 2)%Q as Hlt; [|by vm_compute in Hlt].
  apply H; [|reflexivity..].
  exists {| num_keys_ := 0; load_factor_ := 1 # 2; buckets_ := [[]] |}, [].
  split_and!; [vm_compute; discriminate | reflexivity | reflexivity].
Qed.

(** Claim C3, amended.  When twice the initial capacity times the load factor
    exceeds one (which holds for every capacity when the load factor exceeds
    1/2), then after every sequence of operations, immediately after every
    [Put] that inserts a new key, the ratio of the key count to the capacity
    is strictly less than the load factor. *)
Theorem insert_keeps_ratio_below
    (capacity : Z) (load_factor : Q) (t : HashTable)
    (key : Z) (value : string) (t' : HashTable) :
  (1 < 2 * inject_Z capacity * load_factor)%Q →
  reachable_from capacity load_factor t →
  ContainsKey t key = Ok false → Put t key value = Ok t' →
  (inject_Z (size t') / inject_Z (itis.capacity t') < load_factor)%Q.
Proof.
  intros Hfit (t0 & ops & Hint & HN & Hrun) _ HP.
  assert (ratio_inv load_factor t') as (Hwf & _ & Hr & _).
  { apply (ratio_inv_step _ t (OpPut key value)); [|done].
    apply (ratio_inv_run _ t0 ops); [|done]. by apply (ratio_inv_New _ capacity). }
  apply Qlt_shift_div_r; [|done].
  rewrite <-(Zlt_Qlt 0). by apply wf_capacity_pos.
Qed.

Lemma insert_keeps_ratio_below_witness :
  (inject_Z 4 / inject_Z 8 < 1)%Q.
Proof.
  apply (insert_keeps_ratio_below 4 1
           {| num_keys_ := 3; load_factor_ := 1;
              buckets_ := [[(0, "0")]; [(1, "1")]; [(2, "2")]; []] |}
           3 "3"
           {| num_keys_ := 4; load_factor_ := 1;
              buckets_ := [[(0, "0")]; [(1, "1")]; [(2, "2")]; [(3, "3")];
                           []; []; []; []] |}).
  - reflexivity.
  - exists {| num_keys_ := 0; load_factor_ := 1; buckets_ := [[]; []; []; []] |},
      [OpPut 0 "0"; OpPut 1 "1"; OpPut 2 "2"].
    split_and!; [vm_compute; discriminate | reflexivity | reflexivity].
  - reflexivity.
  - reflexivity.
Defined.

(** ** Runs of insertions *)

Section put_all.
Implicit Types (t : HashTable) (key k : Z) (value v : string)
  (kvs : list (Z * string)).

Lemma put_all_cons t k v kvs :
  put_all t ((k, v) :: kvs) = Put t k v ≫= λ t1, put_all t1 kvs.
Proof. done. Qed.

Lemma put_all_snoc t kvs k v :
  put_all t (kvs ++ [(k, v)]) = put_all t kvs ≫= λ t1, Put t1 k v.
Proof.
  unfold put_all. rewrite fmap_app, run_app.
  destruct (run t _) as [t1|]; simpl; [|done]. by destruct (Put t1 k v).
Qed.

Lemma put_all_spec t kvs t' :
  wf t → NoDup kvs.*1 → put_all t kvs = Ok t' →
  wf t' ∧ load_factor_ t' = load_factor_ t ∧
  ∀ k, lookup_key t' k =
         match find_key k kvs with Some v => Some v | None => lookup_key t k end.
Proof.
  revert t. induction kvs as [|[k0 v0] kvs IH]; intros t Hwf Hnd.
  - by intros [= <-].
  - rewrite put_all_cons. intros (t1 & HP & Hrest)%bind_Ok.
    rewrite fmap_cons in Hnd. apply NoDup_cons in Hnd as [Hk0 Hnd]. simpl in Hk0.
    destruct (Put_spec _ _ _ _ Hwf HP) as (Hwf1 & Hl1 & _ & Hlf1 & _).
    destruct (IH t1 Hwf1 Hnd Hrest) as (Hwf' & Hlf' & Hl').
    split_and!; [done|congruence|].
    intros k. rewrite Hl', Hl1. simpl.
    destruct (Z.eqb_spec k0 k) as [->|Hne].
    + apply find_key_None in Hk0. rewrite Hk0. by destruct (decide (k = k)).
    + by destruct (decide (k = k0)); [congruence|].
Qed.

Lemma put_all_num_keys t kvs t' :
  wf t → NoDup kvs.*1 → (∀ k, k ∈ kvs.*1 → lookup_key t k = None) →
  put_all t kvs = Ok t' →
  num_keys_ t' = num_keys_ t + Z.of_nat (length kvs).
Proof.
  revert t. induction kvs as [|[k0 v0] kvs IH]; intros t Hwf Hnd Hfresh.
  - intros [= <-]. simpl. lia.
  - rewrite put_all_cons. intros (t1 & HP & Hrest)%bind_Ok.
    rewrite fmap_cons in Hnd, Hfresh. apply NoDup_cons in Hnd as [Hk0 Hnd].
    destruct (Put_spec _ _ _ _ Hwf HP) as (Hwf1 & Hl1 & Hn1 & _).
    rewrite (Hfresh k0) in Hn1 by left.
    rewrite (IH t1 Hwf1 Hnd); [simpl; lia| |done].
    intros k Hk. rewrite Hl1. destruct (decide (k = k0)) as [->|_]; [done|].
    apply Hfresh. by right.
Qed.

Lemma put_all_num_keys_mono t kvs t' :
  wf t → put_all t kvs = Ok t' → num_keys_ t ≤ num_keys_ t'.
Proof.
  revert t. induction kvs as [|[k0 v0] kvs IH]; intros t Hwf.
  - intros [= <-]. lia.
  - rewrite put_all_cons. intros (t1 & HP & Hrest)%bind_Ok.
    destruct (Put_spec _ _ _ _ Hwf HP) as (Hwf1 & _ & Hn1 & _).
    specialize (IH t1 Hwf1 Hrest). destruct (lookup_key t k0); lia.
Qed.

(** The capacity after a run of insertions is the initial one doubled some
    number of times, at most once per insertion; if never, the growth test
    of the last insertion failed. *)
Lemma put_all_capacity t kvs t' :
  wf t → put_all t kvs = Ok t' →
  ∃ g : nat,
    (g ≤ length kvs)%nat ∧
    capacity t' = capacity t * 2 ^ Z.of_nat g ∧
    (g = 0%nat → kvs ≠ [] → must_grow t' = false).
Proof.
  revert t. induction kvs as [|[k0 v0] kvs IH]; intros t Hwf.
  - intros [= <-]. exists 0%nat. split_and!; [done|simpl; lia|done].
  - rewrite put_all_cons. intros (t1 & HP & Hrest)%bind_Ok.
    destruct (Put_spec _ _ _ _ Hwf HP) as (Hwf1 & _ & _ & Hlf1 & Hc1).
    destruct (IH t1 Hwf1 Hrest) as (g & Hg & Hc' & Hzero).
    destruct (Qle_bool _ _) eqn:Hgrow.
    + exists (S g). split_and!; [simpl; lia| |done].
      rewrite Hc', Hc1, Nat2Z.inj_succ, Z.pow_succ_r by lia. lia.
    + exists g. split_and!; [simpl; lia|by rewrite Hc', Hc1|].
      intros -> _. destruct kvs as [|kv kvs]; [|by apply Hzero].
      injection Hrest as <-. unfold must_grow. fold (capacity t1).
      by rewrite Hlf1, Hc1.
Qed.

(** The capacity never decreases along a run of insertions. *)
Lemma put_all_capacity_mono t kvs t' :
  wf t → put_all t kvs = Ok t' → capacity t ≤ capacity t'.
Proof.
  intros Hwf Hrun. destruct (put_all_capacity _ _ _ Hwf Hrun) as (g & _ & -> & _).
  pose proof (wf_capacity_pos _ Hwf). pose proof (Z.pow_pos_nonneg 2 (Z.of_nat g)). nia.
Qed.

Lemma find_key_tabulate (f : Z → string) (ks : list Z) key :
  find_key key ((λ k, (k, f k)) <$> ks) =
    if decide (key ∈ ks) then Some (f key) else None.
Proof.
  induction ks as [|k ks IH].
  - by destruct (decide (key ∈ [])) as [?%elem_of_nil|].
  - rewrite fmap_cons. cbn [find_key]. rewrite IH.
    destruct (Z.eqb_spec k key) as [->|Hne].
    + destruct (decide (key ∈ key :: ks)) as [|Hn]; [done|]. destruct Hn. left.
    + destruct (decide (key ∈ ks)), (decide (key ∈ k :: ks)) as [Hin|Hn]; try done.
      * destruct Hn. by right.
      * apply elem_of_cons in Hin as [->|?]; done.
Qed.

Lemma fst_tabulate (f : Z → string) (ks : list Z) :
  ((λ k, (k, f k)) <$> ks).*1 = ks.
Proof. rewrite <-list_fmap_compose. apply list_fmap_id. Qed.

End put_all.

(** Claim C5 (refuted by the code).  The claim is made for every sequence
    of distinct keys.  In the table of capacity 4 and load factor 1 the
    single key -1 is below the threshold (1 < 4 * 1), but [Put(-1, "-1")]
    indexes the bucket array at [-1 % 4 = -1]: the run has no result, nothing
    is stored and no [Search] follows. *)
Theorem roundtrip_negative_key_fails :
  ∃ t0, New 4 1 = Ok t0 ∧
    (inject_Z (Z.of_nat (length [-1])) < inject_Z 4 * 1)%Q ∧
    put_all t0 (string_pairs [-1]) = Err (OutOfBounds (-1) 4) ∧
    Search t0 (-1) = Err (OutOfBounds (-1) 4).
Proof. eexists. split_and!; reflexivity. Qed.

(** Claim C4 (refuted by the code).  The claim is made for any distinct
    keys.  In the table of capacity 4 and load factor 1, the scenario of the
    claim, put the keys -4, 1 and 2: the key -4 is a multiple of the capacity
    and is stored in bucket 0, the size is 3 and the capacity 4.  The fourth
    key, 3, reaches [ceil(4 * 1.0)] keys and triggers the growth, whose loop
    rehashes the stored key -4 to index [-4 % 8 = -4] of the new array: the
    call has no result, the capacity does not become 8 and no key can be
    retrieved afterwards. *)
Theorem growth_negative_key_fails :
  ∃ t0 t3, New 4 1 = Ok t0 ∧
    put_all t0 (string_pairs [-4; 1; 2]) = Ok t3 ∧
    size t3 = 3 ∧ capacity t3 = 4 ∧
    Search t3 (-4) = Ok (Some (to_string (-4))) ∧
    Qceiling (inject_Z 4 * 1) = 4 ∧
    Put t3 3 (to_string 3) = Err (OutOfBounds (-4) 8).
Proof. do 2 eexists. split_and!; reflexivity. Qed.

(** * Further properties of the code *)

(** ** The hash function *)

(** Property X1.  For a positive table size, [utils::hash] returns the
    truncated remainder: for a non-negative key it is a valid index, equal to
    the mathematical modulus; for a negative key it is never positive, and it
    is a valid index only when the key is a multiple of the table size. *)
Theorem hash_sign_and_range (key table_size : Z) :
  0 < table_size →
  ∃ h, utils.hash key table_size = Ok h ∧
       (0 ≤ key → 0 ≤ h < table_size ∧ h = key `mod` table_size) ∧
       (key < 0 → - table_size < h ≤ 0 ∧ (h = 0 ↔ (table_size | key))).
Proof.
  intros Hn. exists (Z.rem key table_size). split_and!.
  - by apply utils_hash_pos.
  - intros Hk. split.
    + apply Z.rem_bound_pos; lia.
    + apply Z.rem_mod_nonneg; lia.
  - intros Hk. pose proof (Z.rem_bound_pos_neg key table_size Hn ltac:(lia)). split; [lia|].
    rewrite <-Z.rem_divide by lia. done.
Qed.

Lemma hash_sign_and_range_witness :
  utils.hash 13 4 = Ok 1 ∧ utils.hash (-13) 4 = Ok (-1) ∧ utils.hash (-12) 4 = Ok 0.
Proof.
  destruct (hash_sign_and_range 13 4) as (h & Hh & _); [lia|].
  split_and!; reflexivity.
Defined.

(** ** Definedness of the operations *)

(** Property X2.  On a table with at least one bucket, [Search] returns
    exactly for the keys whose remainder modulo the capacity is not negative;
    for every other key [Search], [ContainsKey], [Put] and [Remove] all index
    the bucket array at the negative remainder. *)
Theorem negative_remainder_is_out_of_bounds
    (t : HashTable) (key : Z) (value : string) :
  0 < capacity t →
  ((∃ r, Search t key = Ok r) ↔ 0 ≤ Z.rem key (capacity t)) ∧
  (Z.rem key (capacity t) < 0 →
   let e := OutOfBounds (Z.rem key (capacity t)) (capacity t) in
   Search t key = Err e ∧ ContainsKey t key = Err e ∧
   Put t key value = Err e ∧ Remove t key = Err e).
Proof.
  intros Hc. split.
  - rewrite <-Search_index_ok. unfold index_ok. split; [by intros [_ ?] | done].
  - intros Hr e.
    assert (Search t key = Err e) as Hs by (by apply Search_negative).
    assert (hash t key = Ok (Z.rem key (capacity t))) as Hh by (by apply hash_Ok).
    unfold Put, Remove, ContainsKey. by rewrite Hh, Hs.
Qed.

Lemma negative_remainder_is_out_of_bounds_witness :
  let t := {| num_keys_ := 1; load_factor_ := 3 # 4;
              buckets_ := [[]; []; [(6, "six")]; []] |} in
  Search t (-6) = Err (OutOfBounds (-2) 4) ∧
  Remove t (-6) = Err (OutOfBounds (-2) 4).
Proof.
  intros t.
  destruct (proj2 (negative_remainder_is_out_of_bounds t (-6) "" ltac:(done))
              ltac:(done)) as (Hs & _ & _ & Hr).
  split; [exact Hs | exact Hr].
Defined.

(** ** Put and Search *)

(** Property X3.  After a [Put] that returns on a well-formed table,
    [Search] finds the new value under the key; every other key that was found
    before is found with the same value, also when the table has grown; and
    no other key has become present. *)
Theorem Put_then_Search (t : HashTable) (key : Z) (value : string) (t' : HashTable) :
  wf t → Put t key value = Ok t' →
  Search t' key = Ok (Some value) ∧
  (∀ k v, k ≠ key → Search t k = Ok (Some v) → Search t' k = Ok (Some v)) ∧
  (∀ k v, k ≠ key → Search t' k = Ok (Some v) → Search t k = Ok (Some v)).
Proof.
  intros Hwf HP. destruct (Put_spec _ _ _ _ Hwf HP) as (Hwf' & Hl & _).
  split_and!.
  - apply Search_Some_lookup_key; [done|]. rewrite Hl. by destruct (decide (key = key)).
  - intros k v Hne Hs. apply Search_Some_lookup_key; [done|].
    apply Search_Some_lookup_key in Hs; [|done].
    rewrite Hl. by destruct (decide (k = key)).
  - intros k v Hne Hs. apply Search_Some_lookup_key; [done|].
    apply Search_Some_lookup_key in Hs; [|done].
    rewrite Hl in Hs. by destruct (decide (k = key)).
Qed.

Lemma Put_then_Search_witness :
  let t := {| num_keys_ := 2; load_factor_ := 3 # 4;
              buckets_ := [[(4, "four")]; [(1, "one")]; []; []] |} in
  ∃ t', Put t 6 "six" = Ok t' ∧ capacity t' = 8 ∧
        Search t' 6 = Ok (Some "six") ∧ Search t' 4 = Ok (Some "four").
Proof.
  intros t. eexists. split; [reflexivity|]. split; [reflexivity|].
  assert (wf t) as Hwf.
  { apply (run_wf {| num_keys_ := 0; load_factor_ := 3 # 4; buckets_ := [[]; []; []; []] |}
             [OpPut 4 "four"; OpPut 1 "one"]); [|reflexivity].
    apply (wf_New 4 (3 # 4)); [vm_compute; discriminate | reflexivity]. }
  destruct (Put_then_Search t 6 "six" _ Hwf eq_refl) as (Hs & Hold & _).
  split; [exact Hs|]. apply Hold; [discriminate | reflexivity].
Defined.

(** ** The snapshots [keys()] and [values()] *)

Section snapshots.
Implicit Types (t : HashTable) (key k : Z) (value v : string).

Lemma keys_lookup_eq t t' :
  (∀ k, is_Some (lookup_key t' k) ↔ is_Some (lookup_key t k)) → keys t' = keys t.
Proof.
  intros H. apply set_eq. intros k. by rewrite !elem_of_keys.
Qed.

Lemma assign_key_app key value (b1 b2 : list (Z * string)) :
  assign_key key value (b1 ++ b2) = assign_key key value b1 ++ assign_key key value b2.
Proof.
  induction b1 as [|[k w] b1 IH]; simpl; [done|]. by rewrite IH.
Qed.

Lemma assign_key_insert key value v0 (b : list (Z * string)) (i : nat) :
  NoDup b.*1 → b !! i = Some (key, v0) →
  assign_key key value b = <[i := (key, value)]> b.
Proof.
  revert i. induction b as [|[k w] b IH]; intros i Hnd Hi; [done|].
  rewrite fmap_cons in Hnd. apply NoDup_cons in Hnd as [Hk Hnd]. simpl in Hk.
  destruct i as [|i]; simpl in *.
  - injection Hi as -> ->. rewrite Z.eqb_refl. f_equal.
    apply assign_key_absent. by apply find_key_None.
  - destruct (Z.eqb_spec k key) as [->|_].
    + destruct Hk. apply list_elem_of_fmap. exists (key, v0).
      split; [done|]. by eapply list_elem_of_lookup_2.
    + f_equal. by apply IH.
Qed.

Lemma erase_key_snoc key value (b : list (Z * string)) :
  find_key key b = None → erase_key key (b ++ [(key, value)]) = Some (value, b).
Proof.
  induction b as [|[k w] b IH]; simpl.
  - intros _. by rewrite Z.eqb_refl.
  - destruct (Z.eqb_spec k key); [done|]. intros Hf. by rewrite IH.
Qed.

End snapshots.

(** Property X4.  On a well-formed table, a [Put] that returns adds exactly
    its key to [keys()], and a [Remove] that returns takes exactly its key
    away. *)
Theorem keys_Put_Remove (t : HashTable) (key : Z) :
  wf t →
  (∀ value t', Put t key value = Ok t' → keys t' = {[key]} ∪ keys t) ∧
  (∀ r t', Remove t key = Ok (r, t') → keys t' = keys t ∖ {[key]}).
Proof.
  intros Hwf. split.
  - intros value t' HP. destruct (Put_spec _ _ _ _ Hwf HP) as (_ & Hl & _).
    apply set_eq. intros k.
    rewrite elem_of_union, elem_of_singleton, !elem_of_keys, Hl.
    destruct (decide (k = key)) as [->|Hne].
    + split; [by left | by eexists].
    + split; [by right | by intros [?|?]].
  - intros r t' HR. destruct (Remove_spec _ _ _ _ Hwf HR) as (_ & _ & Hl & _).
    apply set_eq. intros k.
    rewrite elem_of_difference, elem_of_singleton, !elem_of_keys, Hl.
    destruct (decide (k = key)) as [->|Hne].
    + split; [by intros [? ?] | by intros [_ ?]].
    + split; [done | by intros [? _]].
Qed.

Lemma keys_Put_Remove_witness :
  let t := {| num_keys_ := 2; load_factor_ := 3 # 4;
              buckets_ := [[(4, "four")]; [(1, "one")]; []; []] |} in
  (∃ t', Put t 6 "six" = Ok t' ∧ keys t' = {[6]} ∪ keys t) ∧
  (∃ t', Remove t 4 = Ok (Some "four", t') ∧ keys t' = keys t ∖ {[4]}).
Proof.
  intros t.
  assert (wf t) as Hwf.
  { apply (run_wf {| num_keys_ := 0; load_factor_ := 3 # 4; buckets_ := [[]; []; []; []] |}
             [OpPut 4 "four"; OpPut 1 "one"]); [|reflexivity].
    apply (wf_New 4 (3 # 4)); [vm_compute; discriminate | reflexivity]. }
  split.
  - eexists. split; [reflexivity|].
    apply (proj1 (keys_Put_Remove t 6 Hwf) "six"). reflexivity.
  - eexists. split; [reflexivity|].
    apply (proj2 (keys_Put_Remove t 4 Hwf) (Some "four")). reflexivity.
Defined.

(** Property X5.  On a well-formed table [keys()] has exactly [size()]
    elements and [values()] exactly [size()] entries; a key is in [keys()]
    exactly when [ContainsKey] returns true; and [empty()] is true exactly
    when [keys()] is empty. *)
Theorem snapshots_agree_with_size (t : HashTable) :
  wf t →
  Z.of_nat (base.size (keys t)) = size t ∧
  Z.of_nat (length (values t)) = size t ∧
  (∀ key, key ∈ keys t ↔ ContainsKey t key = Ok true) ∧
  (empty t = true ↔ keys t = ∅).
Proof.
  intros Hwf.
  assert (Z.of_nat (base.size (keys t)) = size t) as Hsz.
  { unfold keys, size. rewrite size_list_to_set by apply Hwf.
    rewrite length_fmap. symmetry. by apply wf_num_entries. }
  split_and!.
  - done.
  - by apply values_length.
  - intros key. rewrite elem_of_keys. split.
    + intros [v Hv]. apply ContainsKey_Ok. exists (Some v). split; [|done].
      by apply Search_Some_lookup_key.
    + intros (r & Hs & Hr)%ContainsKey_Ok. destruct r as [v|]; [|done].
      exists v. by apply Search_Some_lookup_key.
  - unfold empty. rewrite Z.eqb_eq, <-Hsz.
    rewrite <-(leibniz_equiv_iff (keys t) ∅), <-size_empty_iff. lia.
Qed.

Lemma snapshots_agree_with_size_witness :
  let t := {| num_keys_ := 2; load_factor_ := 3 # 4;
              buckets_ := [[(4, "four")]; [(1, "one")]; []; []] |} in
  Z.of_nat (base.size (keys t)) = 2 ∧ length (values t) = 2%nat ∧
  ContainsKey t 4 = Ok true.
Proof.
  intros t.
  assert (wf t) as Hwf.
  { apply (run_wf {| num_keys_ := 0; load_factor_ := 3 # 4; buckets_ := [[]; []; []; []] |}
             [OpPut 4 "four"; OpPut 1 "one"]); [|reflexivity].
    apply (wf_New 4 (3 # 4)); [vm_compute; discriminate | reflexivity]. }
  destruct (snapshots_agree_with_size t Hwf) as (Hk & _ & _ & _).
  split; [exact Hk|]. split; reflexivity.
Defined.

(** Property X6.  On a well-formed table, a [Put] of a stored key that
    returns without making the table grow (the capacity is what it was)
    changes [values()] at the position of that key only and leaves the order
    of the keys as it was: the value is overwritten, nothing is added or
    moved. *)
Theorem overwrite_changes_one_value
    (t : HashTable) (key : Z) (value v0 : string) (t' : HashTable) :
  wf t → lookup_key t key = Some v0 →
  Put t key value = Ok t' → capacity t' = capacity t →
  ∃ i : nat,
    entries t !! i = Some (key, v0) ∧
    values t' = <[i := value]> (values t) ∧
    (entries t').*1 = (entries t).*1.
Proof.
  intros Hwf Hv (t1 & Hst & Hgrow)%Put_inv Hcap.
  pose proof (Put_store_wf _ _ _ _ Hwf Hst) as Hwf1.
  pose proof (Put_store_capacity _ _ _ _ Hst) as [Hc1 _].
  pose proof (wf_capacity_pos _ Hwf) as Hcpos.
  destruct (Put_grow_spec _ _ Hwf1 Hgrow) as (_ & _ & _ & _ & Hc').
  apply Put_grow_inv in Hgrow as [[_ ->]|(Hg & _)]; [|rewrite Hg in Hc'; lia].
  apply Put_store_inv in Hst as (_ & b & Hb & Hcase).
  pose proof (lookup_key_bucket _ _ _ Hwf Hb) as Hlb. rewrite Hv in Hlb.
  rewrite <-Hlb in Hcase. subst t1.
  set (t' := {| num_keys_ := num_keys_ t; load_factor_ := load_factor_ t;
                buckets_ := <[Z.to_nat (Z.rem key (capacity t)) :=
                              assign_key key value b]> (buckets_ t) |}).
  assert (entries t' = assign_key key value (entries t)) as Hent.
  { unfold entries. simpl.
    destruct (join_insert (buckets_ t) _ b (assign_key key value b) Hb)
      as (l & r & Hj & ->).
    pose proof (wf_nodup _ Hwf) as Hnd. unfold entries in Hnd.
    rewrite Hj, !fmap_app in Hnd. rewrite Hj, !assign_key_app.
    assert (key ∈ b.*1) as Hin by (apply find_key_is_Some; eauto).
    apply NoDup_app in Hnd as (_ & Hl & Hnd).
    apply NoDup_app in Hnd as (_ & Hr & _).
    rewrite (assign_key_absent key value l), (assign_key_absent key value r); [done|..].
    - apply find_key_None. by apply Hr.
    - apply find_key_None. intros Hkl. apply (Hl _ Hkl). apply elem_of_app. by left. }
  apply find_key_Some_elem, list_elem_of_lookup in Hv as [i Hi].
  exists i. split_and!; [done| |].
  - unfold values. fold (entries t') (entries t).
    rewrite Hent, (assign_key_insert key value v0 _ i (wf_nodup _ Hwf) Hi).
    by rewrite list_fmap_insert.
  - by rewrite Hent, assign_key_fst.
Qed.

Lemma overwrite_changes_one_value_witness :
  let t := {| num_keys_ := 2; load_factor_ := 3 # 4;
              buckets_ := [[(4, "four")]; [(1, "one")]; []; []] |} in
  ∃ t', Put t 1 "reference" = Ok t' ∧ values t' = ["four"; "reference"].
Proof.
  intros t.
  assert (wf t) as Hwf.
  { apply (run_wf {| num_keys_ := 0; load_factor_ := 3 # 4; buckets_ := [[]; []; []; []] |}
             [OpPut 4 "four"; OpPut 1 "one"]); [|reflexivity].
    apply (wf_New 4 (3 # 4)); [vm_compute; discriminate | reflexivity]. }
  eexists. split; [reflexivity|].
  destruct (overwrite_changes_one_value t 1 "reference" "one" _ Hwf eq_refl eq_refl eq_refl)
    as (i & Hi & Hvals & _).
  destruct i as [|[|i]]; [discriminate Hi | exact Hvals | discriminate Hi].
Defined.

(** Property X7.  On a well-formed table, a [Put] of a key that is not
    stored which does not make the table grow is undone by [Remove] of the
    key: [Remove] returns the value that was put and the table is again the
    one before the [Put], bucket for bucket. *)
Theorem Put_then_Remove_restores
    (t : HashTable) (key : Z) (value : string) (t' : HashTable) :
  wf t → lookup_key t key = None →
  Put t key value = Ok t' → capacity t' = capacity t →
  Remove t' key = Ok (Some value, t).
Proof.
  intros Hwf Hnone (t1 & Hst & Hgrow)%Put_inv Hcap.
  pose proof (Put_store_wf _ _ _ _ Hwf Hst) as Hwf1.
  pose proof (Put_store_capacity _ _ _ _ Hst) as [Hc1 _].
  pose proof (wf_capacity_pos _ Hwf) as Hcpos.
  destruct (Put_grow_spec _ _ Hwf1 Hgrow) as (_ & _ & _ & _ & Hc').
  apply Put_grow_inv in Hgrow as [[_ ->]|(Hg & _)]; [|rewrite Hg in Hc'; lia].
  apply Put_store_inv in Hst as (Hok & b & Hb & Hcase).
  rewrite <-(lookup_key_bucket _ _ _ Hwf Hb), Hnone in Hcase.
  destruct Hcase as [Hn ->].
  pose proof (lookup_key_bucket _ _ _ Hwf Hb) as Hfb. rewrite Hnone in Hfb.
  apply Remove_inv. split; [by unfold index_ok; rewrite Hc1|].
  rewrite Hc1. exists (b ++ [(key, value)]). simpl. split.
  - apply list_lookup_insert_eq. by eapply lookup_lt_Some.
  - rewrite erase_key_snoc by done.
    pose proof (wf_num_keys_nonneg _ Hwf). split; [unfold INT_MIN; lia|].
    split; [done|]. destruct t as [n lf bs]. simpl in *. f_equal; [lia|].
    rewrite list_insert_insert_eq. symmetry. by apply list_insert_id.
Qed.

Lemma Put_then_Remove_restores_witness :
  let t := {| num_keys_ := 1; load_factor_ := 3 # 4;
              buckets_ := [[(4, "four")]; []; []; []] |} in
  ∃ t', Put t 8 "eight" = Ok t' ∧ Remove t' 8 = Ok (Some "eight", t).
Proof.
  intros t.
  assert (wf t) as Hwf.
  { apply (run_wf {| num_keys_ := 0; load_factor_ := 3 # 4; buckets_ := [[]; []; []; []] |}
             [OpPut 4 "four"]); [|reflexivity].
    apply (wf_New 4 (3 # 4)); [vm_compute; discriminate | reflexivity]. }
  eexists. split; [reflexivity|].
  apply (Put_then_Remove_restores t 8 "eight" _ Hwf); reflexivity.
Defined.

(** ** Invariants of every run *)

Section runs.
Implicit Types (t : HashTable) (key k : Z) (value v : string).

Lemma size_inv_New capacity load_factor t :
  capacity ≤ INT_MAX → New capacity load_factor = Ok t → size_inv t.
Proof.
  intros Hint HN. pose proof (wf_New _ _ _ Hint HN) as Hwf.
  destruct (New_capacity _ _ _ HN) as (Hc & Hn & Hlf & _).
  apply New_inv in HN as (Hpos & _ & Hle & _).
  split_and!; [done|by rewrite Hlf|lia].
Qed.

Lemma size_inv_step t o t' : size_inv t → step t o = Ok t' → size_inv t'.
Proof.
  intros (Hwf & Hlf & Hlt) Hst.
  pose proof (step_wf _ _ _ Hwf Hst) as Hwf'.
  pose proof (step_load_factor _ _ _ Hwf Hst) as Hlf'.
  pose proof (wf_capacity_pos _ Hwf) as Hcpos.
  split_and!; [done|by rewrite Hlf'|].
  destruct o as [key value|key]; simpl in Hst.
  - destruct (Put_spec _ _ _ _ Hwf Hst) as (_ & _ & Hn & _ & Hc).
    destruct (Qle_bool _ _) eqn:Hg.
    + destruct (lookup_key t key); lia.
    + rewrite Hc. apply Z.nle_gt. intros Hge.
      assert (Qle_bool (load_factor_ t)
                (inject_Z (num_keys_ t') / inject_Z (capacity t)) = true) as Hg';
        [|congruence].
      apply Qle_bool_iff, Qle_shift_div_l; [by rewrite <-(Zlt_Qlt 0)|].
      rewrite Zle_Qle in Hge. rewrite (Zlt_Qlt 0) in Hcpos.
      change (inject_Z 0) with 0%Q in Hcpos. nra.
  - apply fmap_Ok in Hst as ([r t''] & HR & ->).
    destruct (Remove_spec _ _ _ _ Hwf HR) as (_ & _ & _ & Hn & _ & Hc). simpl.
    rewrite Hc, Hn. destruct r; lia.
Qed.

Lemma size_inv_run t ops t' : size_inv t → run t ops = Ok t' → size_inv t'.
Proof.
  revert t. induction ops as [|o ops IH]; intros t Hinv; simpl.
  - by intros [= <-].
  - intros (t1 & Hst & Hrun)%bind_Ok. eauto using size_inv_step.
Qed.

Lemma Remove_entries t key r t' e :
  wf t → Remove t key = Ok (r, t') → e ∈ entries t' → e ∈ entries t.
Proof.
  intros Hwf HR He. destruct (Remove_spec _ _ _ _ Hwf HR) as (Hwf' & _ & Hl & _).
  destruct e as [k v]. apply lookup_key_elem in He; [|done].
  rewrite Hl in He. destruct (decide (k = key)); [done|].
  by apply lookup_key_elem.
Qed.

Lemma nonneg_keys_run t ops t' :
  wf t → Forall (λ e, 0 ≤ e.1) (entries t) → Forall (λ o, 0 ≤ op_key o) ops →
  run t ops = Ok t' → Forall (λ e, 0 ≤ e.1) (entries t').
Proof.
  revert t. induction ops as [|o ops IH]; intros t Hwf Hkeys Hops; simpl.
  - by intros [= <-].
  - intros (t1 & Hst & Hrun)%bind_Ok.
    apply Forall_cons in Hops as [Ho Hops].
    apply (IH t1); [by eapply step_wf| |done..].
    apply Forall_forall. intros e He.
    destruct o as [key value|key]; simpl in Hst, Ho.
    + destruct (Put_entries _ _ _ _ _ Hwf Hst He) as [->|Hin]; [done|].
      by apply (proj1 (Forall_forall _ _) Hkeys).
    + apply fmap_Ok in Hst as ([r t''] & HR & ->).
      apply (proj1 (Forall_forall _ _) Hkeys). by eapply Remove_entries.
Qed.

Lemma step_capacity t o t' :
  wf t → step t o = Ok t' →
  capacity t' = capacity t ∨ capacity t' = capacity t * 2.
Proof.
  intros Hwf. destruct o as [key value|key]; simpl.
  - intros HP. destruct (Put_spec _ _ _ _ Hwf HP) as (_ & _ & _ & _ & ->).
    destruct (Qle_bool _ _); auto.
  - intros ([r t''] & HR & ->)%fmap_Ok. left. by apply (Remove_spec _ _ _ _ Hwf HR).
Qed.

End runs.

(** Property X8.  In every table state reached from a constructor call
    with a load factor that is a number in (0, 1] there are strictly fewer
    keys than buckets: the load factor is at most one and [Put] grows the
    table as soon as the ratio reaches it.  In particular the key counter is
    never incremented past [INT_MAX]. *)
Theorem size_below_capacity (capacity : Z) (load_factor : Q) (t : HashTable) :
  (0 < load_factor)%Q → (load_factor <= 1)%Q →
  reachable_from capacity load_factor t →
  0 ≤ size t < itis.capacity t ∧ itis.capacity t ≤ INT_MAX.
Proof.
  intros _ _ (t0 & ops & Hint & HN & Hrun).
  destruct (size_inv_run t0 ops t) as (Hwf & _ & Hlt); [by eapply size_inv_New|done|].
  split; [|apply Hwf]. split; [by apply wf_num_keys_nonneg | done].
Qed.

Lemma size_below_capacity_witness :
  let t := {| num_keys_ := 4; load_factor_ := 1;
              buckets_ := [[(0, "0")]; [(1, "1")]; [(2, "2")]; [(3, "3")];
                           []; []; []; []] |} in
  0 ≤ size t < capacity t ∧ capacity t ≤ INT_MAX.
Proof.
  apply (size_below_capacity 4 1); [reflexivity | discriminate |].
  exists {| num_keys_ := 0; load_factor_ := 1; buckets_ := [[]; []; []; []] |},
    [OpPut 0 "0"; OpPut 1 "1"; OpPut 2 "2"; OpPut 3 "3"].
  split_and!; [vm_compute; discriminate | reflexivity | reflexivity].
Defined.

(** Property X9.  Along every run of [Put] and [Remove] calls that return
    on a well-formed table, the configured load factor stays what it was and
    the capacity is only ever doubled, at most once per call: the table
    never shrinks. *)
Theorem capacity_only_doubles (t : HashTable) (ops : list op) (t' : HashTable) :
  wf t → run t ops = Ok t' →
  load_factor t' = load_factor t ∧
  ∃ g : nat, (g ≤ length ops)%nat ∧ capacity t' = capacity t * 2 ^ Z.of_nat g.
Proof.
  intros Hwf Hrun. split; [by eapply run_load_factor|].
  revert t Hwf Hrun. induction ops as [|o ops IH]; intros t Hwf; simpl.
  - intros [= <-]. exists 0%nat. split; [done|]. simpl. lia.
  - intros (t1 & Hst & Hrun)%bind_Ok.
    destruct (IH t1) as (g & Hg & Hc); [by eapply step_wf|done|].
    destruct (step_capacity _ _ _ Hwf Hst) as [Hc1|Hc1].
    + exists g. split; [lia|]. by rewrite Hc, Hc1.
    + exists (S g). split; [lia|].
      rewrite Hc, Hc1, Nat2Z.inj_succ, Z.pow_succ_r by lia. lia.
Qed.

Lemma capacity_only_doubles_witness :
  let t := {| num_keys_ := 0; load_factor_ := 1 # 2; buckets_ := [[]; []] |} in
  ∃ t', run t [OpPut 0 "a"; OpPut 1 "b"; OpRemove 0; OpRemove 1] = Ok t' ∧
        size t' = 0 ∧
        ∃ g : nat, (g ≤ 4)%nat ∧ capacity t' = 2 * 2 ^ Z.of_nat g.
Proof.
  intros t. eexists. split; [reflexivity|]. split; [reflexivity|].
  assert (wf t) as Hwf by (apply (wf_New 2 (1 # 2)); [vm_compute; discriminate | reflexivity]).
  exact (proj2 (capacity_only_doubles t
                  [OpPut 0 "a"; OpPut 1 "b"; OpRemove 0; OpRemove 1] _ Hwf eq_refl)).
Defined.

(** Property X10.  In a table reached from the constructor by calls with
    non-negative keys only, every stored key is non-negative, and [Search],
    [ContainsKey] and [Remove] return for every non-negative key; [Put]
    returns for every non-negative key as long as twice the capacity is
    still an [int]. *)
Theorem nonnegative_keys_are_safe
    (capacity : Z) (load_factor : Q) (t0 : HashTable) (ops : list op)
    (t : HashTable) (key : Z) (value : string) :
  capacity ≤ INT_MAX → New capacity load_factor = Ok t0 →
  Forall (λ o, 0 ≤ op_key o) ops → run t0 ops = Ok t → 0 ≤ key →
  (∀ k, k ∈ keys t → 0 ≤ k) ∧
  (∃ r, Search t key = Ok r) ∧
  (∃ c, ContainsKey t key = Ok c) ∧
  (∃ r t', Remove t key = Ok (r, t')) ∧
  (itis.capacity t * 2 ≤ INT_MAX → ∃ t', Put t key value = Ok t').
Proof.
  intros Hint HN Hops Hrun Hkey.
  destruct (size_inv_run t0 ops t) as (Hwf & _ & Hlt); [by eapply size_inv_New|done|].
  assert (Forall (λ e, 0 ≤ e.1) (entries t)) as Hkeys.
  { apply (nonneg_keys_run t0 ops); [by eapply wf_New| |done..].
    destruct (New_capacity _ _ _ HN) as (_ & _ & _ & ->). constructor. }
  assert (index_ok t key) as Hok.
  { split; [by apply wf_capacity_pos|].
    apply Z.rem_nonneg; [|done]. pose proof (wf_capacity_pos _ Hwf). lia. }
  assert (∃ r, Search t key = Ok r) as [r Hr] by (by apply Search_index_ok).
  split_and!.
  - intros k [v Hv%find_key_Some_elem]%elem_of_keys.
    by apply (proj1 (Forall_forall _ _) Hkeys (k, v)).
  - eauto.
  - exists (has_value r). apply ContainsKey_Ok. eauto.
  - by apply Remove_total.
  - intros Hcap. apply Put_total; try done.
    pose proof (wf_capacity _ Hwf). lia.
Qed.

Lemma nonnegative_keys_are_safe_witness :
  ∃ t', Put {| num_keys_ := 2; load_factor_ := 3 # 4;
               buckets_ := [[(4, "four")]; [(1, "one")]; []; []] |} 9 "nine" = Ok t'.
Proof.
  apply (proj2 (proj2 (proj2 (proj2
    (nonnegative_keys_are_safe 4 (3 # 4)
       {| num_keys_ := 0; load_factor_ := 3 # 4; buckets_ := [[]; []; []; []] |}
       [OpPut 4 "four"; OpPut 1 "one"]
       {| num_keys_ := 2; load_factor_ := 3 # 4;
          buckets_ := [[(4, "four")]; [(1, "one")]; []; []] |}
       9 "nine" ltac:(vm_compute; discriminate) eq_refl
       ltac:(repeat constructor; vm_compute; discriminate) eq_refl
       ltac:(lia)))))).
  vm_compute. discriminate.
Defined.

(** ** Repeated keys *)

Lemma put_all_lookup_key (t : HashTable) (kvs : list (Z * string)) (t' : HashTable) :
  wf t → put_all t kvs = Ok t' →
  ∀ k, lookup_key t' k =
         match find_key k (reverse kvs) with
         | Some v => Some v
         | None => lookup_key t k
         end.
Proof.
  revert t. induction kvs as [|[k0 v0] kvs IH]; intros t Hwf.
  - by intros [= <-].
  - rewrite put_all_cons. intros (t1 & HP & Hrest)%bind_Ok k.
    destruct (Put_spec _ _ _ _ Hwf HP) as (Hwf1 & Hl1 & _).
    rewrite (IH t1 Hwf1 Hrest), reverse_cons, find_key_app, Hl1. simpl.
    destruct (find_key k (reverse kvs)); [done|].
    destruct (Z.eqb_spec k0 k) as [->|Hne].
    + by destruct (decide (k = k)).
    + by destruct (decide (k = k0)); [congruence|].
Qed.

(** Property X11.  After a run of [Put] calls that returns on a well-formed
    table, whatever the keys (repeated or not), [Search] finds under a key the
    value of the last [Put] of that key, or the value it had before the run
    when the run has no [Put] of it; and [keys()] has gained exactly the keys
    of the run. *)
Theorem last_Put_wins (t : HashTable) (kvs : list (Z * string)) (t' : HashTable) :
  wf t → put_all t kvs = Ok t' →
  (∀ k v, Search t' k = Ok (Some v) ↔
          find_key k (reverse kvs) = Some v ∨
          (find_key k (reverse kvs) = None ∧ Search t k = Ok (Some v))) ∧
  keys t' = list_to_set kvs.*1 ∪ keys t.
Proof.
  intros Hwf Hrun.
  pose proof (put_all_lookup_key _ _ _ Hwf Hrun) as Hl.
  assert (wf t') as Hwf' by (by eapply run_wf).
  split.
  - intros k v. rewrite !Search_Some_lookup_key, Hl by done.
    destruct (find_key k (reverse kvs)) as [w|].
    + split; [by left | by intros [?|[? _]]].
    + split; [by right | by intros [?|[_ ?]]].
  - apply set_eq. intros k.
    rewrite elem_of_union, elem_of_list_to_set, !elem_of_keys, Hl.
    rewrite <-(elem_of_reverse k kvs.*1), <-fmap_reverse, <-find_key_is_Some.
    destruct (find_key k (reverse kvs)) as [w|].
    + split; [left; by eexists | by eexists].
    + split; [by right | by intros [[? ?]|?]].
Qed.

Lemma last_Put_wins_witness :
  let t := {| num_keys_ := 1; load_factor_ := 3 # 4;
              buckets_ := [[(4, "four")]; []; []; []] |} in
  ∃ t', put_all t [(1, "a"); (4, "b"); (1, "c")] = Ok t' ∧
        Search t' 1 = Ok (Some "c") ∧ Search t' 4 = Ok (Some "b").
Proof.
  intros t.
  assert (wf t) as Hwf.
  { apply (run_wf {| num_keys_ := 0; load_factor_ := 3 # 4; buckets_ := [[]; []; []; []] |}
             [OpPut 4 "four"]); [|reflexivity].
    apply (wf_New 4 (3 # 4)); [vm_compute; discriminate | reflexivity]. }
  eexists. split; [reflexivity|].
  destruct (last_Put_wins t [(1, "a"); (4, "b"); (1, "c")] _ Hwf eq_refl) as [Hs _].
  split; apply Hs; left; reflexivity.
Defined.

(** ** The order of the pairs *)

Section order.
Implicit Types (bs nb : list (list (Z * string))) (b : list (Z * string)).

Lemma rehash_bucket_lookup b nb nb' :
  rehash_bucket b nb = Ok nb' →
  ∀ j : nat,
    nb' !! j =
      (λ x, x ++ filter (λ e, Z.rem e.1 (Z.of_nat (length nb)) = Z.of_nat j) b)
        <$> (nb !! j).
Proof.
  revert nb. induction b as [|e b IH]; intros nb; simpl.
  - intros [= <-] j. destruct (nb !! j); simpl; [|done]. by rewrite app_nil_r.
  - intros (h & [Hn ->]%utils_hash_Ok & (x & [Hpos Hx]%at_index_Ok & Hrec)%bind_Ok)%bind_Ok j.
    rewrite (IH _ Hrec j), length_insert, filter_cons.
    destruct (decide (Z.to_nat (Z.rem e.1 (Z.of_nat (length nb))) = j)) as [<-|Hne].
    + rewrite list_lookup_insert_eq by (by eapply lookup_lt_Some).
      rewrite Hx. simpl. rewrite decide_True by lia. by rewrite <-(assoc_L (++)).
    + rewrite list_lookup_insert_ne by done. by rewrite decide_False by lia.
Qed.

Lemma rehash_lookup bs nb nb' :
  rehash bs nb = Ok nb' →
  ∀ j : nat,
    nb' !! j =
      (λ x, x ++ filter (λ e, Z.rem e.1 (Z.of_nat (length nb)) = Z.of_nat j) (mjoin bs))
        <$> (nb !! j).
Proof.
  revert nb. induction bs as [|b bs IH]; intros nb; simpl.
  - intros [= <-] j. destruct (nb !! j); simpl; [|done]. by rewrite app_nil_r.
  - intros (nb1 & Hb & Hrec)%bind_Ok j.
    pose proof (rehash_bucket_Ok _ _ _ Hb) as (Hlen & _).
    rewrite (IH _ Hrec j), Hlen, (rehash_bucket_lookup _ _ _ Hb j), filter_app.
    destruct (nb !! j); simpl; [|done]. by rewrite <-(assoc_L (++)).
Qed.

End order.

(** Property X12.  When [Put] makes a well-formed table grow, every bucket
    of the doubled array holds exactly the pairs whose key has the index of
    the bucket as remainder modulo the new capacity, in the order in which
    the array listed them just before the growth (that is, with the pair of
    the call already stored), bucket after bucket. *)
Theorem growth_keeps_order
    (t : HashTable) (key : Z) (value : string) (t1 t' : HashTable) :
  wf t → Put_store t key value = Ok t1 → Put t key value = Ok t' →
  capacity t' ≠ capacity t →
  capacity t' = capacity t * 2 ∧
  ∀ j : nat, (Z.of_nat j < capacity t * 2) →
    buckets_ t' !! j =
      Some (filter (λ e, Z.rem e.1 (capacity t * 2) = Z.of_nat j) (entries t1)).
Proof.
  intros Hwf Hst HP Hne.
  rewrite Put_store_grow, Hst in HP. simpl in HP.
  pose proof (Put_store_wf _ _ _ _ Hwf Hst) as Hwf1.
  pose proof (Put_store_capacity _ _ _ _ Hst) as [Hc1 _].
  pose proof (wf_capacity_pos _ Hwf1) as Hcpos.
  destruct (Put_grow_spec _ _ Hwf1 HP) as (_ & _ & _ & _ & Hc).
  apply Put_grow_inv in HP as [[_ ->]|(Hg & _ & nb & Hnb & ->)]; [done|].
  rewrite Hg in Hc. rewrite <-Hc1. split; [done|]. intros j Hj.
  simpl. rewrite (rehash_lookup _ _ _ Hnb j), length_replicate, Z2Nat.id by lia.
  rewrite lookup_replicate_2 by lia. done.
Qed.

Lemma growth_keeps_order_witness :
  let t := {| num_keys_ := 2; load_factor_ := 3 # 4;
              buckets_ := [[(8, "a"); (4, "b")]; []; []; []] |} in
  ∃ t', Put t 1 "c" = Ok t' ∧
        buckets_ t' !! 0%nat = Some [(8, "a")] ∧
        buckets_ t' !! 4%nat = Some [(4, "b")].
Proof.
  intros t.
  assert (wf t) as Hwf.
  { apply (run_wf {| num_keys_ := 0; load_factor_ := 3 # 4; buckets_ := [[]; []; []; []] |}
             [OpPut 8 "a"; OpPut 4 "b"]); [|reflexivity].
    apply (wf_New 4 (3 # 4)); [vm_compute; discriminate | reflexivity]. }
  eexists. split; [reflexivity|].
  destruct (growth_keeps_order t 1 "c" _ _ Hwf eq_refl eq_refl ltac:(discriminate))
    as [_ Hb].
  split.
  - exact (Hb 0%nat ltac:(vm_compute; reflexivity)).
  - exact (Hb 4%nat ltac:(vm_compute; reflexivity)).
Defined.

(** ** The keys of the test-suite *)

Section iota.

Lemma iota_S n : iota (S n) = iota n ++ [Z.of_nat n].
Proof. unfold iota. by rewrite seq_S, fmap_app. Qed.

Lemma length_iota n : length (iota n) = n.
Proof. unfold iota. by rewrite length_fmap, length_seq. Qed.

Lemma elem_of_iota k n : k ∈ iota n ↔ 0 ≤ k < Z.of_nat n.
Proof.
  unfold iota. rewrite list_elem_of_fmap. split.
  - intros (j & -> & Hj%elem_of_seq). lia.
  - intros Hk. exists (Z.to_nat k). split; [lia|]. apply elem_of_seq. lia.
Qed.

Lemma NoDup_iota n : NoDup (iota n).
Proof. apply NoDup_fmap_2; [apply Nat2Z.inj' | apply NoDup_seq]. Qed.

Lemma string_pairs_snoc ks k :
  string_pairs (ks ++ [k]) = string_pairs ks ++ [(k, to_string k)].
Proof. unfold string_pairs. by rewrite fmap_app. Qed.

Lemma length_identity_buckets C n : length (identity_buckets C n) = C.
Proof. unfold identity_buckets. by rewrite length_fmap, length_seq. Qed.

Lemma lookup_identity_buckets C n (j : nat) :
  (j < C)%nat →
  identity_buckets C n !! j =
    Some (if decide (j < n)%nat then [(Z.of_nat j, to_string (Z.of_nat j))] else []).
Proof.
  intros Hj. unfold identity_buckets. rewrite list_lookup_fmap, lookup_seq_lt by done.
  done.
Qed.

Lemma identity_buckets_0 C : identity_buckets C 0 = replicate C [].
Proof.
  apply list_eq. intros j. destruct (decide (j < C)%nat).
  - rewrite lookup_identity_buckets, lookup_replicate_2 by done. done.
  - rewrite !lookup_ge_None_2; [done|..].
    + rewrite length_replicate. lia.
    + rewrite length_identity_buckets. lia.
Qed.

Lemma identity_buckets_insert C n :
  (n < C)%nat →
  <[n := [(Z.of_nat n, to_string (Z.of_nat n))]]> (identity_buckets C n) =
    identity_buckets C (S n).
Proof.
  intros Hn. apply list_eq. intros j. destruct (decide (j < C)%nat).
  - rewrite lookup_identity_buckets by done.
    destruct (decide (n = j)) as [->|Hne].
    + rewrite list_lookup_insert_eq by (rewrite length_identity_buckets; lia).
      by rewrite decide_True by lia.
    + rewrite list_lookup_insert_ne, lookup_identity_buckets by done.
      destruct (decide (j < n)%nat), (decide (j < S n)%nat); try done; lia.
  - rewrite !lookup_ge_None_2; [done|..].
    + rewrite length_identity_buckets. lia.
    + rewrite length_insert, length_identity_buckets. lia.
Qed.

Lemma join_identity_buckets C n :
  (n ≤ C)%nat → mjoin (identity_buckets C n) = string_pairs (iota n).
Proof.
  intros Hn. unfold identity_buckets, string_pairs, iota.
  replace C with (n + (C - n))%nat by lia.
  rewrite seq_app, fmap_app, join_app.
  assert (∀ s m, (n ≤ s)%nat →
            mjoin ((λ j, if decide (j < n)%nat
                         then [(Z.of_nat j, to_string (Z.of_nat j))] else [])
                     <$> seq s m) = []) as Hback.
  { intros s m. revert s. induction m as [|m IH]; intros s Hs; simpl; [done|].
    rewrite decide_False by lia. apply IH. lia. }
  rewrite (Hback (0 + n)%nat), app_nil_r by lia.
  assert (∀ s m, (s + m ≤ n)%nat →
            mjoin ((λ j, if decide (j < n)%nat
                         then [(Z.of_nat j, to_string (Z.of_nat j))] else [])
                     <$> seq s m)
            = (λ k, (k, to_string k)) <$> (Z.of_nat <$> seq s m)) as Hfront.
  { intros s m. revert s. induction m as [|m IH]; intros s Hs; simpl; [done|].
    rewrite decide_True by lia. simpl. f_equal. apply IH. lia. }
  apply Hfront. lia.
Qed.

Lemma filter_string_pairs_iota (M : Z) n (j : nat) :
  Z.of_nat n ≤ M →
  filter (λ e, Z.rem e.1 M = Z.of_nat j) (string_pairs (iota n)) =
    if decide (j < n)%nat then [(Z.of_nat j, to_string (Z.of_nat j))] else [].
Proof.
  induction n as [|n IH]; intros Hn; [done|].
  rewrite iota_S, string_pairs_snoc, filter_app, IH by lia.
  rewrite filter_cons, filter_nil. simpl.
  rewrite Z.rem_small by lia.
  destruct (decide (Z.of_nat n = Z.of_nat j)) as [Heq|Hne].
  - apply Nat2Z.inj in Heq as ->.
    rewrite decide_False, decide_True by lia. done.
  - destruct (decide (j < n)%nat), (decide (j < S n)%nat); try done; lia.
Qed.


Lemma rehash_identity C n :
  (0 < C)%nat → (n ≤ C)%nat →
  rehash (identity_buckets C n) (replicate (C * 2) []) = Ok (identity_buckets (C * 2) n).
Proof.
  intros HC Hn.
  destruct (rehash_total (identity_buckets C n) (replicate (C * 2) [])) as [nb Hnb].
  - rewrite length_replicate. lia.
  - rewrite join_identity_buckets by done. apply Forall_forall.
    intros e (k & -> & [Hk _]%elem_of_iota)%list_elem_of_fmap. simpl.
    apply Z.rem_nonneg; [|done]. rewrite length_replicate. lia.
  - rewrite Hnb. f_equal. apply list_eq. intros j.
    pose proof (rehash_Ok _ _ _ Hnb) as (Hlen & _). rewrite length_replicate in Hlen.
    rewrite (rehash_lookup _ _ _ Hnb j), length_replicate.
    destruct (decide (j < C * 2)%nat).
    + rewrite lookup_replicate_2, lookup_identity_buckets by done. simpl.
      rewrite join_identity_buckets, filter_string_pairs_iota by lia. done.
    + rewrite !lookup_ge_None_2; [done|..].
      * rewrite length_identity_buckets. lia.
      * rewrite length_replicate. lia.
Qed.

Lemma Put_store_identity lf C n :
  (n < C)%nat → Z.of_nat n < INT_MAX →
  Put_store {| num_keys_ := Z.of_nat n; load_factor_ := lf;
               buckets_ := identity_buckets C n |}
            (Z.of_nat n) (to_string (Z.of_nat n)) =
    Ok {| num_keys_ := Z.of_nat (S n); load_factor_ := lf;
          buckets_ := identity_buckets C (S n) |}.
Proof.
  intros Hn Hint.
  set (t := {| num_keys_ := Z.of_nat n; load_factor_ := lf;
               buckets_ := identity_buckets C n |}).
  assert (capacity t = Z.of_nat C) as Hc
    by (unfold capacity; simpl; by rewrite length_identity_buckets).
  assert (Z.rem (Z.of_nat n) (capacity t) = Z.of_nat n) as Hr
    by (rewrite Hc; apply Z.rem_small; lia).
  apply Put_store_inv. rewrite Hr, Nat2Z.id.
  split; [unfold index_ok; rewrite Hr, Hc; lia|].
  exists []. split.
  - simpl. rewrite lookup_identity_buckets by done. by rewrite decide_False by lia.
  - simpl. split; [unfold INT_MIN; lia|].
    rewrite identity_buckets_insert by done. f_equal. lia.
Qed.

(** One insertion of the test-suite: the key [n] into the table that holds
    0, ..., n-1, each alone in its bucket. *)
Lemma Put_identity_inv lf C n t' :
  (lf <= 1)%Q → (n < C)%nat →
  Put {| num_keys_ := Z.of_nat n; load_factor_ := lf;
         buckets_ := identity_buckets C n |}
      (Z.of_nat n) (to_string (Z.of_nat n)) = Ok t' →
  ∃ C', (S n < C')%nat ∧
        t' = {| num_keys_ := Z.of_nat (S n); load_factor_ := lf;
                buckets_ := identity_buckets C' (S n) |}.
Proof.
  intros Hlf Hn (t1 & Hst & Hgrow)%Put_inv.
  assert (Z.of_nat n < INT_MAX) as Hint.
  { apply Put_store_inv in Hst as (_ & b & Hb & Hcase). simpl in Hb.
    assert (Z.rem (Z.of_nat n) (capacity {| num_keys_ := Z.of_nat n; load_factor_ := lf;
               buckets_ := identity_buckets C n |}) = Z.of_nat n) as Hr.
    { unfold capacity. simpl. rewrite length_identity_buckets. apply Z.rem_small. lia. }
    rewrite Hr, Nat2Z.id, lookup_identity_buckets, decide_False in Hb by lia.
    injection Hb as <-. simpl in Hcase. lia. }
  rewrite Put_store_identity in Hst by done. injection Hst as <-.
  apply Put_grow_inv in Hgrow as [[Hg ->]|(Hg & Hcap & nb & Hnb & ->)].
  - exists C. split; [|done].
    apply must_grow_false in Hg;
      [|unfold capacity; simpl; rewrite length_identity_buckets; lia].
    unfold capacity in Hg. simpl in Hg. rewrite length_identity_buckets in Hg.
    assert (inject_Z (Z.of_nat (S n)) / inject_Z (Z.of_nat C) < 1)%Q as Hlt
      by (by eapply Qlt_le_trans).
    apply Nat2Z.inj_lt. rewrite Zlt_Qlt.
    destruct (Qlt_le_dec (inject_Z (Z.of_nat (S n))) (inject_Z (Z.of_nat C)))
      as [|Hge]; [done|].
    exfalso. apply (Qlt_not_le _ _ Hlt). apply Qle_shift_div_l.
    + rewrite <-(Zlt_Qlt 0). lia.
    + by rewrite Qmult_1_l.
  - exists (C * 2)%nat. split; [lia|]. f_equal.
    unfold capacity, kGrowthCoefficient in Hnb. simpl in Hnb.
    rewrite length_identity_buckets in Hnb.
    replace (Z.to_nat (Z.of_nat C * 2)) with (C * 2)%nat in Hnb by lia.
    rewrite rehash_identity in Hnb by lia. by injection Hnb.
Qed.

Lemma put_all_identity lf C n t :
  (lf <= 1)%Q → (0 < C)%nat →
  put_all {| num_keys_ := 0; load_factor_ := lf; buckets_ := replicate C [] |}
          (string_pairs (iota n)) = Ok t →
  ∃ C', (n < C')%nat ∧
        t = {| num_keys_ := Z.of_nat n; load_factor_ := lf;
               buckets_ := identity_buckets C' n |}.
Proof.
  intros Hlf HC. revert t. induction n as [|n IH]; intros t.
  - intros [= <-]. exists C. split; [done|]. by rewrite identity_buckets_0.
  - rewrite iota_S, string_pairs_snoc, put_all_snoc.
    intros (t1 & Hrun & HP)%bind_Ok.
    destruct (IH t1 Hrun) as (C1 & Hn1 & ->).
    by apply (Put_identity_inv lf C1 n).
Qed.

End iota.

(** Property X13.  Take a table freshly constructed with any capacity and
    with a load factor that is a number in (0, 1].  A run of [Put] of the
    keys 0, 1, ..., n-1, in this order, each with its decimal string, that
    returns leaves every key alone in the bucket of its own index, so that
    [size()] is n, the capacity exceeds n and [values()] lists the strings of
    0, ..., n-1 in this order: growth does not disturb it. *)
Theorem iota_values_in_order
    (capacity : Z) (load_factor : Q) (t0 : HashTable) (n : nat) (t : HashTable) :
  (0 < load_factor)%Q → (load_factor <= 1)%Q →
  New capacity load_factor = Ok t0 →
  put_all t0 (string_pairs (iota n)) = Ok t →
  size t = Z.of_nat n ∧ Z.of_nat n < itis.capacity t ∧
  values t = to_string <$> iota n ∧
  ∀ j : nat, Z.of_nat j < itis.capacity t →
    buckets_ t !! j =
      Some (if decide (j < n)%nat then [(Z.of_nat j, to_string (Z.of_nat j))] else []).
Proof.
  intros _ Hlf (Hc & _ & _ & ->)%New_inv Hrun.
  destruct (put_all_identity load_factor (Z.to_nat capacity) n t) as (C' & Hn & ->);
    [done|lia|done|].
  unfold size, itis.capacity, values. simpl. rewrite length_identity_buckets.
  split_and!; [done|lia| |].
  - rewrite join_identity_buckets by lia. unfold string_pairs.
    rewrite <-list_fmap_compose. done.
  - intros j Hj. apply lookup_identity_buckets. lia.
Qed.

Lemma iota_values_in_order_witness :
  ∃ t, put_all {| num_keys_ := 0; load_factor_ := 3 # 4; buckets_ := replicate 2 [] |}
         (string_pairs (iota 5)) = Ok t ∧
       capacity t = 8 ∧ values t = ["0"; "1"; "2"; "3"; "4"].
Proof.
  assert (put_all {| num_keys_ := 0; load_factor_ := 3 # 4; buckets_ := replicate 2 [] |}
            (string_pairs (iota 5)) =
          Ok {| num_keys_ := 5; load_factor_ := 3 # 4;
                buckets_ := [[(0, "0")]; [(1, "1")]; [(2, "2")]; [(3, "3")];
                             [(4, "4")]; []; []; []] |}) as Hrun
    by (vm_compute; reflexivity).
  eexists. split; [exact Hrun|]. split; [vm_compute; reflexivity|].
  destruct (iota_values_in_order 2 (3 # 4) _ 5 _ eq_refl ltac:(discriminate) eq_refl Hrun)
    as (_ & _ & Hvalues & _).
  rewrite Hvalues. vm_compute. reflexivity.
Defined.

Lemma Put_identity_one C m :
  (m < C)%nat → Z.of_nat m < INT_MAX → (S m = C → Z.of_nat C * 2 ≤ INT_MAX) →
  Put {| num_keys_ := Z.of_nat m; load_factor_ := 1;
         buckets_ := identity_buckets C m |}
      (Z.of_nat m) (to_string (Z.of_nat m)) =
    Ok {| num_keys_ := Z.of_nat (S m); load_factor_ := 1;
          buckets_ := identity_buckets (if decide (S m = C) then C * 2 else C)%nat (S m) |}.
Proof.
  intros Hm Hint Hcap. apply Put_inv. eexists. split; [by apply Put_store_identity|].
  apply Put_grow_inv.
  assert (0 < inject_Z (Z.of_nat C))%Q as HC by (rewrite <-(Zlt_Qlt 0); lia).
  destruct (decide (S m = C)) as [Heq|Hne].
  - right. split_and!.
    + unfold must_grow. simpl. rewrite length_identity_buckets, Heq.
      apply Qle_bool_iff, Qle_shift_div_l; [done|]. rewrite Qmult_1_l. apply Qle_refl.
    + unfold capacity. simpl. rewrite length_identity_buckets. auto.
    + eexists. split; [|done].
      unfold capacity. simpl. rewrite length_identity_buckets.
      replace (Z.to_nat (Z.of_nat C * 2)) with (C * 2)%nat by lia.
      apply rehash_identity; lia.
  - left. split; [|done]. apply must_grow_false.
    + unfold capacity. simpl. rewrite length_identity_buckets. lia.
    + unfold capacity. simpl. rewrite length_identity_buckets.
      apply Qlt_shift_div_r; [done|]. rewrite Qmult_1_l, <-Zlt_Qlt. lia.
Qed.

Lemma put_all_identity_one (c n : nat) :
  (0 < c)%nat → (n < c * 2)%nat → Z.of_nat c ≤ INT_MAX →
  ((c ≤ n)%nat → Z.of_nat c * 2 ≤ INT_MAX) →
  put_all {| num_keys_ := 0; load_factor_ := 1; buckets_ := replicate c [] |}
          (string_pairs (iota n)) =
    Ok {| num_keys_ := Z.of_nat n; load_factor_ := 1;
          buckets_ := identity_buckets (if decide (n < c) then c else c * 2)%nat n |}.
Proof.
  intros Hc. induction n as [|n IH]; intros Hn Hint Hcap.
  - rewrite decide_True by done. by rewrite identity_buckets_0.
  - rewrite iota_S, string_pairs_snoc, put_all_snoc, IH; [|lia|done|intros; apply Hcap; lia].
    simpl. destruct (decide (n < c)%nat) as [Hlt|Hge].
    + rewrite Put_identity_one; [|done|lia|intros <-; apply Hcap; lia].
      do 3 f_equal.
      destruct (decide (S n = c)), (decide (S n < c)%nat); try done; lia.
    + rewrite Put_identity_one; [|lia| |lia].
      * do 3 f_equal.
        destruct (decide (S n = c * 2)%nat), (decide (S n < c)%nat); try done; lia.
      * assert (Z.of_nat c * 2 ≤ INT_MAX) by (apply Hcap; lia). lia.
Qed.

(** Property X14.  The insertions of the test-suite go as it expects for
    every capacity, not only for those it tries: into a fresh table of
    capacity c and load factor 1, the run of [Put] of the keys 0, ..., n-1
    with their decimal strings returns for every n below 2c (twice the
    capacity being an [int] when n reaches c); the capacity is still c when
    n is below c and is 2c otherwise; [size()] is n, [values()] lists the
    strings in the order of the keys and [ContainsKey] is true for every
    key put. *)
Theorem test_suite_insertions (capacity : Z) (n : nat) :
  0 < capacity ≤ INT_MAX → Z.of_nat n < capacity * 2 →
  (capacity ≤ Z.of_nat n → capacity * 2 ≤ INT_MAX) →
  ∃ t0 t,
    New capacity 1 = Ok t0 ∧
    put_all t0 (string_pairs (iota n)) = Ok t ∧
    itis.capacity t = (if Z.of_nat n <? capacity then capacity else capacity * 2) ∧
    size t = Z.of_nat n ∧
    values t = to_string <$> iota n ∧
    ∀ k, k ∈ iota n → ContainsKey t k = Ok true.
Proof.
  intros [Hc Hint] Hn Hcap.
  set (t0 := {| num_keys_ := 0; load_factor_ := 1;
                buckets_ := replicate (Z.to_nat capacity) [] |}).
  assert (New capacity 1 = Ok t0) as HN by (by apply New_inv).
  pose proof (put_all_identity_one (Z.to_nat capacity) n) as Hrun.
  fold t0 in Hrun. rewrite Z2Nat.id in Hrun by lia.
  specialize (Hrun ltac:(lia) ltac:(lia) Hint ltac:(intros; apply Hcap; lia)).
  eexists t0, _. split; [done|]. split; [exact Hrun|].
  assert (wf t0) as Hwf0 by (by apply (wf_New capacity 1)).
  pose proof (run_wf _ _ _ Hwf0 Hrun) as Hwf.
  set (C := (if decide (n < Z.to_nat capacity)%nat
             then Z.to_nat capacity else Z.to_nat capacity * 2)%nat) in *.
  assert (n ≤ C)%nat as HnC by (unfold C; destruct (decide _); lia).
  assert (entries {| num_keys_ := Z.of_nat n; load_factor_ := 1;
                     buckets_ := identity_buckets C n |} = string_pairs (iota n)) as Hent
    by (unfold entries; simpl; by apply join_identity_buckets).
  split_and!.
  - unfold itis.capacity. simpl. rewrite length_identity_buckets. unfold C.
    destruct (Z.ltb_spec (Z.of_nat n) capacity), (decide (n < Z.to_nat capacity)%nat); lia.
  - done.
  - unfold values. fold (entries {| num_keys_ := Z.of_nat n; load_factor_ := 1;
                                    buckets_ := identity_buckets C n |}).
    rewrite Hent. unfold string_pairs. by rewrite <-list_fmap_compose.
  - intros k Hk. apply ContainsKey_Ok. exists (Some (to_string k)). split; [|done].
    apply Search_Some_lookup_key; [done|]. unfold lookup_key. rewrite Hent.
    unfold string_pairs. rewrite find_key_tabulate. by rewrite decide_True.
Qed.

Lemma test_suite_insertions_witness :
  ∃ t, put_all {| num_keys_ := 0; load_factor_ := 1; buckets_ := replicate 3 [] |}
         (string_pairs (iota 5)) = Ok t ∧
       capacity t = 6 ∧ size t = 5 ∧ values t = ["0"; "1"; "2"; "3"; "4"].
Proof.
  destruct (test_suite_insertions 3 5) as (t0 & t & HN & Hrun & Hc & Hs & Hv & _).
  - vm_compute. split; [reflexivity | discriminate].
  - reflexivity.
  - intros _. vm_compute. discriminate.
  - injection HN as <-. exists t. split_and!; [exact Hrun | exact Hc | exact Hs | exact Hv].
Defined.

(** ** Insertion order within a bucket *)

Lemma Put_fresh_same_capacity (t : HashTable) (key : Z) (value : string) (t' : HashTable) :
  wf t → lookup_key t key = None →
  Put t key value = Ok t' → capacity t' = capacity t →
  ∃ b, buckets_ t !! Z.to_nat (Z.rem key (capacity t)) = Some b ∧
       0 ≤ Z.rem key (capacity t) ∧
       buckets_ t' = <[Z.to_nat (Z.rem key (capacity t)) := b ++ [(key, value)]]>
                       (buckets_ t).
Proof.
  intros Hwf Hnone (t1 & Hst & Hgrow)%Put_inv Hcap.
  pose proof (Put_store_wf _ _ _ _ Hwf Hst) as Hwf1.
  pose proof (Put_store_capacity _ _ _ _ Hst) as [Hc1 _].
  pose proof (wf_capacity_pos _ Hwf) as Hcpos.
  destruct (Put_grow_spec _ _ Hwf1 Hgrow) as (_ & _ & _ & _ & Hc').
  apply Put_grow_inv in Hgrow as [[_ ->]|(Hg & _)]; [|rewrite Hg in Hc'; lia].
  apply Put_store_inv in Hst as (Hok & b & Hb & Hcase).
  rewrite <-(lookup_key_bucket _ _ _ Hwf Hb), Hnone in Hcase.
  destruct Hcase as [_ ->]. exists b. split_and!; [done|apply Hok|done].
Qed.

Lemma put_all_buckets (t : HashTable) (kvs : list (Z * string)) (t' : HashTable) :
  wf t → NoDup kvs.*1 → (∀ k, k ∈ kvs.*1 → lookup_key t k = None) →
  put_all t kvs = Ok t' → capacity t' = capacity t →
  ∀ j : nat,
    buckets_ t' !! j =
      (λ b, b ++ filter (λ kv, Z.rem kv.1 (capacity t) = Z.of_nat j) kvs)
        <$> (buckets_ t !! j).
Proof.
  revert t. induction kvs as [|[k0 v0] kvs IH]; intros t Hwf Hnd Hfresh.
  - intros [= <-] _ j. destruct (buckets_ t !! j); simpl; [|done]. by rewrite app_nil_r.
  - rewrite put_all_cons. intros (t1 & HP & Hrest)%bind_Ok Hcap j.
    rewrite fmap_cons in Hnd, Hfresh. apply NoDup_cons in Hnd as [Hk0 Hnd].
    simpl in Hk0.
    destruct (Put_spec _ _ _ _ Hwf HP) as (Hwf1 & Hl1 & _).
    assert (capacity t1 = capacity t) as Hc1.
    { pose proof (put_all_capacity_mono _ _ _ Hwf1 Hrest) as Hmono.
      pose proof (wf_capacity_pos _ Hwf) as Hcpos.
      destruct (step_capacity t (OpPut k0 v0) t1 Hwf HP) as [?|Hdouble]; [done|lia]. }
    destruct (Put_fresh_same_capacity _ _ _ _ Hwf (Hfresh k0 ltac:(left)) HP Hc1)
      as (b & Hb & Hpos & Hbs).
    rewrite (IH t1 Hwf1 Hnd); [| |done|congruence].
    + rewrite Hc1, Hbs, filter_cons. simpl.
      destruct (decide (Z.to_nat (Z.rem k0 (capacity t)) = j)) as [<-|Hne].
      * rewrite list_lookup_insert_eq by (by eapply lookup_lt_Some).
        rewrite Hb. simpl. rewrite decide_True by lia. by rewrite <-(assoc_L (++)).
      * rewrite list_lookup_insert_ne by done. by rewrite decide_False by lia.
    + intros k Hk. rewrite Hl1. destruct (decide (k = k0)) as [->|_]; [done|].
      apply Hfresh. by right.
Qed.

(** Property X15.  Take a freshly constructed table and pairs with distinct
    keys, and a run of [Put] over them that returns and leaves the capacity
    as constructed (no [Put] has made the table grow).  Then every bucket
    holds exactly the pairs whose key has the index of the bucket as
    remainder modulo the capacity, in the order in which they were put:
    within a bucket the order is the insertion order. *)
Theorem buckets_in_insertion_order
    (capacity : Z) (load_factor : Q) (t0 : HashTable)
    (kvs : list (Z * string)) (t : HashTable) :
  capacity ≤ INT_MAX → New capacity load_factor = Ok t0 → NoDup kvs.*1 →
  put_all t0 kvs = Ok t → itis.capacity t = capacity →
  ∀ j : nat, Z.of_nat j < capacity →
    buckets_ t !! j =
      Some (filter (λ kv, Z.rem kv.1 capacity = Z.of_nat j) kvs).
Proof.
  intros Hint HN Hnd Hrun Hcap j Hj.
  pose proof (wf_New _ _ _ Hint HN) as Hwf.
  destruct (New_capacity _ _ _ HN) as (Hc & Hn & Hlf & Hent).
  rewrite (put_all_buckets t0 kvs t Hwf Hnd); [| |done|congruence].
  - apply New_inv in HN as (_ & _ & _ & ->). simpl.
    rewrite lookup_replicate_2 by lia. simpl. by rewrite Hc.
  - intros k _. unfold lookup_key. by rewrite Hent.
Qed.

Lemma buckets_in_insertion_order_witness :
  ∃ t, put_all {| num_keys_ := 0; load_factor_ := 1; buckets_ := replicate 4 [] |}
         [(9, "a"); (2, "b"); (5, "c")] = Ok t ∧
       buckets_ t !! 1%nat = Some [(9, "a"); (5, "c")] ∧
       values t = ["a"; "c"; "b"].
Proof.
  eexists. split; [reflexivity|]. split; [|reflexivity].
  apply (buckets_in_insertion_order 4 1
           {| num_keys_ := 0; load_factor_ := 1; buckets_ := replicate 4 [] |}
           [(9, "a"); (2, "b"); (5, "c")]).
  - vm_compute. discriminate.
  - reflexivity.
  - apply (bool_decide_unpack _). vm_compute. exact I.
  - reflexivity.
  - reflexivity.
  - reflexivity.
Defined.

(** ** Remove and the order of the pairs *)

(** Property X19.  On a well-formed table, [Remove] of a key that is stored
    returns the value stored for it, after which [ContainsKey] is false for
    the key and the size is one less; [Remove] of a key that is not stored
    and whose bucket index is in range (every non-negative key) returns no
    value and leaves the table, hence its size, as it was.  In particular
    [Remove(5)] on the empty table of capacity 2 returns no value and the
    size stays 0. *)
Theorem Remove_semantics (t : HashTable) (key : Z) :
  wf t →
  (∀ v, lookup_key t key = Some v →
     ∃ t', Remove t key = Ok (Some v, t') ∧
           ContainsKey t' key = Ok false ∧ size t' = size t - 1) ∧
  (lookup_key t key = None → index_ok t key →
     Remove t key = Ok (None, t)) ∧
  (∃ t0, New 2 kDefaultLoadFactor = Ok t0 ∧
         Remove t0 5 = Ok (None, t0) ∧ size t0 = 0).
Proof.
  intros Hwf. split_and!.
  - intros v Hv. pose proof (lookup_key_index_ok _ _ _ Hwf Hv) as Hok.
    destruct (Remove_total _ _ Hwf Hok) as (r & t' & HR).
    destruct (Remove_spec _ _ _ _ Hwf HR) as (Hwf' & -> & Hl & Hn & _ & Hc).
    rewrite Hv in HR, Hn. exists t'. split_and!; [done| |done].
    apply ContainsKey_Ok. exists None. split; [|done].
    rewrite Search_lookup_key; [|done|by unfold index_ok; rewrite Hc].
    rewrite Hl. by destruct (decide (key = key)).
  - intros Hnone Hok.
    destruct (Remove_total _ _ Hwf Hok) as (r & t' & HR).
    pose proof (Remove_spec _ _ _ _ Hwf HR) as (_ & -> & _).
    apply Remove_inv in HR as (_ & b & Hb & Hcase).
    rewrite Hnone in Hcase.
    apply Remove_inv. split; [done|]. exists b. split; [done|].
    destruct (erase_key key b) as [[d b']|].
    + by destruct Hcase as (_ & ? & _).
    + done.
  - by eexists.
Qed.

Lemma Remove_semantics_witness :
  let t := {| num_keys_ := 3; load_factor_ := 1;
              buckets_ := [[(0, "0"); (4, "4")]; []; [(6, "6")]; []] |} in
  (∃ t', Remove t 4 = Ok (Some "4", t') ∧
         ContainsKey t' 4 = Ok false ∧ size t' = 2) ∧
  Remove t 5 = Ok (None, t).
Proof.
  intros t.
  assert (wf t) as Hwf.
  { apply (run_wf {| num_keys_ := 0; load_factor_ := 1; buckets_ := [[]; []; []; []] |}
             [OpPut 0 "0"; OpPut 4 "4"; OpPut 6 "6"]); [|reflexivity].
    apply (wf_New 4 1); [vm_compute; discriminate | reflexivity]. }
  split.
  - apply (proj1 (Remove_semantics t 4 Hwf) "4"). reflexivity.
  - apply (proj1 (proj2 (Remove_semantics t 5 Hwf))).
    + reflexivity.
    + split; vm_compute; [reflexivity | discriminate].
Defined.

Lemma erase_key_split key (b : list (Z * string)) v b' :
  erase_key key b = Some (v, b') →
  ∃ l1 l2, b = l1 ++ (key, v) :: l2 ∧ b' = l1 ++ l2.
Proof.
  revert b'. induction b as [|[k w] b IH]; simpl; [done|]. intros b'.
  destruct (Z.eqb_spec k key) as [->|Hne].
  - intros [= <- <-]. by exists [], b.
  - destruct (erase_key key b) as [[r b'']|]; simpl; [|done].
    intros [= -> <-]. destruct (IH _ eq_refl) as (l1 & l2 & -> & ->).
    by exists ((k, w) :: l1), l2.
Qed.

Lemma Remove_absent (t : HashTable) (key : Z) :
  wf t → lookup_key t key = None → index_ok t key → Remove t key = Ok (None, t).
Proof.
  intros Hwf Hnone Hok. destruct (index_ok_bucket _ _ Hok) as [b Hb].
  apply Remove_inv. split; [done|]. exists b. split; [done|].
  rewrite (lookup_key_bucket _ _ _ Hwf Hb) in Hnone.
  apply erase_key_None in Hnone. by rewrite Hnone.
Qed.

(** Property X16.  On a well-formed table, [Remove] of a stored key returns
    its value and deletes exactly one entry of [values()], the one at the
    position of the key; all other values keep their order. *)
Theorem Remove_deletes_one_entry (t : HashTable) (key : Z) (v : string) :
  wf t → lookup_key t key = Some v →
  ∃ t' (i : nat),
    Remove t key = Ok (Some v, t') ∧
    entries t !! i = Some (key, v) ∧
    entries t' = delete i (entries t) ∧
    values t' = delete i (values t).
Proof.
  intros Hwf Hv.
  pose proof (lookup_key_index_ok _ _ _ Hwf Hv) as Hok.
  destruct (Remove_total _ _ Hwf Hok) as (r & t' & HR).
  destruct (Remove_spec _ _ _ _ Hwf HR) as (_ & -> & _).
  rewrite Hv in HR. pose proof HR as (_ & b & Hb & Hcase)%Remove_inv.
  destruct (erase_key key b) as [[d b']|] eqn:He; [|by destruct Hcase].
  destruct Hcase as (_ & [= <-] & Ht').
  destruct (erase_key_split _ _ _ _ He) as (l1 & l2 & -> & ->).
  destruct (join_insert (buckets_ t) _ _ (l1 ++ l2) Hb) as (l & r & Hj & Hj').
  assert (entries t = (l ++ l1) ++ (key, v) :: (l2 ++ r)) as Hent.
  { unfold entries. rewrite Hj. by rewrite <-!(assoc_L (++)). }
  assert (entries t' = (l ++ l1) ++ (l2 ++ r)) as Hent'.
  { unfold entries. rewrite Ht'. simpl. rewrite Hj'. by rewrite <-!(assoc_L (++)). }
  exists t', (length (l ++ l1)). split_and!.
  - done.
  - rewrite Hent. by apply list_lookup_middle.
  - by rewrite Hent, Hent', delete_middle.
  - unfold values. fold (entries t') (entries t).
    by rewrite <-list_fmap_delete, Hent, Hent', delete_middle.
Qed.

Lemma Remove_deletes_one_entry_witness :
  let t := {| num_keys_ := 3; load_factor_ := 1;
              buckets_ := [[(0, "0"); (4, "4")]; []; [(6, "6")]; []] |} in
  ∃ t', Remove t 4 = Ok (Some "4", t') ∧ values t' = ["0"; "6"].
Proof.
  intros t.
  assert (wf t) as Hwf.
  { apply (run_wf {| num_keys_ := 0; load_factor_ := 1; buckets_ := [[]; []; []; []] |}
             [OpPut 0 "0"; OpPut 4 "4"; OpPut 6 "6"]); [|reflexivity].
    apply (wf_New 4 1); [vm_compute; discriminate | reflexivity]. }
  destruct (Remove_deletes_one_entry t 4 "4" Hwf eq_refl) as (t' & i & HR & Hi & _ & Hv).
  exists t'. split; [exact HR|].
  destruct i as [|[|[|i]]]; [discriminate Hi | exact Hv | discriminate Hi | discriminate Hi].
Defined.

(** Property X17.  On a well-formed table, once [Remove] of a key has
    returned, a second [Remove] of the same key returns no value and leaves
    the table as it is. *)
Theorem Remove_twice (t : HashTable) (key : Z) (r : option string) (t' : HashTable) :
  wf t → Remove t key = Ok (r, t') → Remove t' key = Ok (None, t').
Proof.
  intros Hwf HR.
  destruct (Remove_spec _ _ _ _ Hwf HR) as (Hwf' & _ & Hl & _ & _ & Hc).
  apply Remove_inv in HR as (Hok & _).
  apply Remove_absent; [done| |by unfold index_ok; rewrite Hc].
  rewrite Hl. by destruct (decide (key = key)).
Qed.

Lemma Remove_twice_witness :
  let t := {| num_keys_ := 3; load_factor_ := 1;
              buckets_ := [[(0, "0"); (4, "4")]; []; [(6, "6")]; []] |} in
  let t' := {| num_keys_ := 2; load_factor_ := 1;
               buckets_ := [[(0, "0")]; []; [(6, "6")]; []] |} in
  Remove t 4 = Ok (Some "4", t') ∧ Remove t' 4 = Ok (None, t').
Proof.
  intros t t'. split; [reflexivity|].
  assert (wf t) as Hwf.
  { apply (run_wf {| num_keys_ := 0; load_factor_ := 1; buckets_ := [[]; []; []; []] |}
             [OpPut 0 "0"; OpPut 4 "4"; OpPut 6 "6"]); [|reflexivity].
    apply (wf_New 4 1); [vm_compute; discriminate | reflexivity]. }
  apply (Remove_twice t 4 (Some "4") t' Hwf). reflexivity.
Defined.

(** Property X18.  A table that the constructor has just returned holds
    nothing: [keys()] and [values()] are empty, and for every key whose
    remainder modulo the capacity is not negative [Search] yields no value,
    [ContainsKey] is false and [Remove] returns no value and leaves the table
    as it is. *)
Theorem fresh_table_holds_nothing
    (capacity : Z) (load_factor : Q) (t : HashTable) (key : Z) :
  New capacity load_factor = Ok t →
  keys t = ∅ ∧ values t = [] ∧
  (0 ≤ Z.rem key capacity →
   Search t key = Ok None ∧ ContainsKey t key = Ok false ∧
   Remove t key = Ok (None, t)).
Proof.
  intros HN. destruct (New_capacity _ _ _ HN) as (Hc & Hn & Hlf & Hent).
  pose proof HN as (Hpos & _)%New_inv.
  split_and!.
  - unfold keys. fold (entries t). by rewrite Hent.
  - unfold values. fold (entries t). by rewrite Hent.
  - intros Hr.
    assert (index_ok t key) as Hok by (unfold index_ok; rewrite Hc; by split).
    assert (buckets_ t !! Z.to_nat (Z.rem key (itis.capacity t)) = Some []) as Hb.
    { rewrite Hc. apply New_inv in HN as (_ & _ & _ & ->). simpl.
      apply lookup_replicate_2, Z2Nat.inj_lt; [done|lia|].
      by apply rem_lt_capacity. }
    assert (Search t key = Ok None) as Hs.
    { apply Search_Ok. split; [done|]. by exists []. }
    split_and!.
    + done.
    + apply ContainsKey_Ok. by exists None.
    + apply Remove_inv. split; [done|]. by exists [].
Qed.

Lemma fresh_table_holds_nothing_witness :
  let t := {| num_keys_ := 0; load_factor_ := 3 # 4; buckets_ := [[]; []; []] |} in
  Search t 7 = Ok None ∧ ContainsKey t 7 = Ok false ∧ Remove t 7 = Ok (None, t).
Proof.
  intros t.
  apply (proj2 (proj2 (fresh_table_holds_nothing 3 (3 # 4) t 7 eq_refl))).
  vm_compute. discriminate.
Defined.

(** ** Runs of insertions with non-negative keys *)

Lemma put_all_total_nonneg (t : HashTable) (kvs : list (Z * string)) :
  size_inv t → Forall (λ e, 0 ≤ e.1) (entries t) → Forall (λ kv, 0 ≤ kv.1) kvs →
  capacity t * 2 ^ Z.of_nat (length kvs) ≤ INT_MAX →
  ∃ t', put_all t kvs = Ok t'.
Proof.
  revert t. induction kvs as [|[k0 v0] kvs IH]; intros t Hinv Hkeys Hall Hcap.
  - by exists t.
  - apply Forall_cons in Hall as [Hk0 Hall]. simpl in Hk0.
    pose proof Hinv as (Hwf & _ & Hlt).
    pose proof (wf_capacity _ Hwf) as [Hcpos Hcmax].
    pose proof (Z.pow_pos_nonneg 2 (Z.of_nat (length kvs)) ltac:(lia) ltac:(lia)) as Hpow.
    rewrite length_cons, Nat2Z.inj_succ, Z.pow_succ_r in Hcap by lia.
    destruct (Put_total t k0 v0) as [t1 HP]; [done|done|done|nia|lia|].
    rewrite put_all_cons, HP. simpl.
    apply IH.
    + by apply (size_inv_step t (OpPut k0 v0)).
    + apply (nonneg_keys_run t [OpPut k0 v0]); [done|done|by repeat constructor|].
      simpl. by rewrite HP.
    + done.
    + destruct (step_capacity t (OpPut k0 v0) t1 Hwf HP) as [-> | ->]; nia.
Qed.

(** Property X20.  Into a table freshly constructed with a load factor that
    is a number in (0, 1], the run of [Put] of [(k, to_string k)] over
    distinct non-negative keys returns, as long as the capacity doubled once
    per key is still an [int].  Afterwards
    [Search] returns the string of every key put, the size is the number of
    keys and [keys()] is the set of the keys put; and if the capacity is
    still the one constructed, the number of keys is below capacity times
    load factor. *)
Theorem roundtrip_nonnegative_keys
    (capacity : Z) (load_factor : Q) (t0 : HashTable) (ks : list Z) :
  (0 < load_factor)%Q → (load_factor <= 1)%Q →
  New capacity load_factor = Ok t0 → NoDup ks → Forall (λ k, 0 ≤ k) ks →
  capacity * 2 ^ Z.of_nat (length ks) ≤ INT_MAX →
  ∃ t, put_all t0 (string_pairs ks) = Ok t ∧
       (∀ k, k ∈ ks → Search t k = Ok (Some (to_string k))) ∧
       size t = Z.of_nat (length ks) ∧
       keys t = list_to_set ks ∧
       (itis.capacity t = capacity →
        (inject_Z (Z.of_nat (length ks)) < inject_Z capacity * load_factor)%Q).
Proof.
  intros Hlfpos Hle1 HN Hnd Hall Hcap.
  pose proof HN as (Hcpos & _)%New_inv.
  pose proof (Z.pow_pos_nonneg 2 (Z.of_nat (length ks)) ltac:(lia) ltac:(lia)) as Hpow.
  assert (capacity ≤ INT_MAX) as Hint by nia.
  pose proof (wf_New _ _ _ Hint HN) as Hwf.
  destruct (New_capacity _ _ _ HN) as (Hc & Hn & Hlf & Hent).
  assert (∀ k, lookup_key t0 k = None) as Hempty
    by (intros k; unfold lookup_key; by rewrite Hent).
  assert (NoDup (string_pairs ks).*1) as Hnd'
    by (unfold string_pairs; by rewrite fst_tabulate).
  destruct (put_all_total_nonneg t0 (string_pairs ks)) as [t Hrun].
  { by apply (size_inv_New capacity load_factor). }
  { rewrite Hent. constructor. }
  { unfold string_pairs. by apply Forall_fmap. }
  { unfold string_pairs. by rewrite Hc, length_fmap. }
  destruct (put_all_spec _ _ _ Hwf Hnd' Hrun) as (Hwf' & Hlf' & Hl).
  pose proof (put_all_num_keys _ _ _ Hwf Hnd' (λ k _, Hempty k) Hrun) as Hsize.
  unfold string_pairs in Hsize. rewrite Hn, length_fmap, Z.add_0_l in Hsize.
  exists t. split_and!.
  - done.
  - intros k Hk. apply Search_Some_lookup_key; [done|].
    rewrite Hl. unfold string_pairs. rewrite find_key_tabulate. by rewrite decide_True.
  - done.
  - apply set_eq. intros k. rewrite elem_of_keys, elem_of_list_to_set, Hl, Hempty.
    unfold string_pairs. rewrite find_key_tabulate.
    destruct (decide (k ∈ ks)) as [Hin|Hnin].
    + split; [done|]. by eexists.
    + split; [by intros [? ?]|done].
  - intros Hsame.
    assert (0 < inject_Z capacity)%Q as HcQ by (by rewrite <-(Zlt_Qlt 0)).
    destruct ks as [|k0 ks].
    { simpl. rewrite <-(Qmult_0_l 0). apply Qmult_lt_0_compat; done. }
    destruct (put_all_capacity _ _ _ Hwf Hrun) as (g & _ & Hcap' & Hzero).
    assert (g = 0%nat) as ->.
    { destruct g as [|g]; [done|]. exfalso.
      rewrite Hc, Hsame, Nat2Z.inj_succ, Z.pow_succ_r in Hcap' by lia.
      pose proof (Z.pow_pos_nonneg 2 (Z.of_nat g) ltac:(lia) ltac:(lia)). nia. }
    specialize (Hzero eq_refl ltac:(done)).
    apply must_grow_false in Hzero; [|by apply wf_capacity_pos].
    rewrite Hsize, Hsame, Hlf', Hlf in Hzero.
    apply Qnot_le_lt. intros Hge. apply (Qlt_not_le _ _ Hzero).
    apply Qle_shift_div_l; [done|]. by rewrite Qmult_comm.
Qed.

Lemma roundtrip_nonnegative_keys_witness :
  ∃ t, put_all {| num_keys_ := 0; load_factor_ := 3 # 4; buckets_ := replicate 4 [] |}
         (string_pairs [8; 3; 0; 12]) = Ok t ∧
       Search t 12 = Ok (Some "12") ∧ size t = 4 ∧ capacity t = 8.
Proof.
  destruct (roundtrip_nonnegative_keys 4 (3 # 4)
              {| num_keys_ := 0; load_factor_ := 3 # 4; buckets_ := replicate 4 [] |}
              [8; 3; 0; 12])
    as (t & Hrun & Hs & Hsz & _).
  - reflexivity.
  - discriminate.
  - reflexivity.
  - apply (bool_decide_unpack _). vm_compute. exact I.
  - repeat (constructor; [vm_compute; discriminate|]). constructor.
  - vm_compute. discriminate.
  - exists t. split; [exact Hrun|]. split; [|split; [exact Hsz|]].
    + apply Hs. apply (bool_decide_unpack _). vm_compute. exact I.
    + assert (put_all {| num_keys_ := 0; load_factor_ := 3 # 4;
                         buckets_ := replicate 4 [] |}
                (string_pairs [8; 3; 0; 12]) =
              Ok {| num_keys_ := 4; load_factor_ := 3 # 4;
                    buckets_ := [[(8, "8"); (0, "0")]; []; []; [(3, "3")];
                                 [(12, "12")]; []; []; []] |}) as Hrun'
        by reflexivity.
      rewrite Hrun in Hrun'. by injection Hrun' as ->.
Defined.

(** Property X21.  Take a table freshly constructed with a load factor that
    is a number in (0, 1] and a run of [Put] over pairs with distinct keys
    that returns.  The size is the number of pairs,
    [Search] returns the value of every key put, and the capacity is the
    initial one doubled some number of times, at most once per pair; when
    there are [ceil(capacity * load_factor)] pairs or more it has been
    doubled at least once.  In particular, in the table of capacity 4 and
    load factor 1, after [Put] of 0, 1 and 2 the size is 3 and the capacity
    4, and after [Put] of 3 the capacity is 8, the size 4 and [Search]
    returns the string of each key. *)
Theorem growth_once_threshold_reached
    (capacity : Z) (load_factor : Q) (t0 t : HashTable) (kvs : list (Z * string)) :
  (0 < load_factor)%Q → (load_factor <= 1)%Q →
  capacity ≤ INT_MAX → New capacity load_factor = Ok t0 → NoDup kvs.*1 →
  put_all t0 kvs = Ok t →
  size t = Z.of_nat (length kvs) ∧
  (∀ k v, (k, v) ∈ kvs → Search t k = Ok (Some v)) ∧
  (∃ g : nat, (g ≤ length kvs)%nat ∧ itis.capacity t = capacity * 2 ^ Z.of_nat g ∧
     (Qceiling (inject_Z capacity * load_factor) ≤ Z.of_nat (length kvs) →
      (1 ≤ g)%nat)) ∧
  (∃ t' t3 t4,
     New 4 1 = Ok t' ∧
     put_all t' (string_pairs [0; 1; 2]) = Ok t3 ∧
     size t3 = 3 ∧ itis.capacity t3 = 4 ∧
     Put t3 3 (to_string 3) = Ok t4 ∧
     itis.capacity t4 = 8 ∧ size t4 = 4 ∧
     Forall (λ k, Search t4 k = Ok (Some (to_string k))) [0; 1; 2; 3]).
Proof.
  intros Hlfpos Hle1 Hint HN Hnd Hrun.
  pose proof (wf_New _ _ _ Hint HN) as Hwf.
  destruct (New_capacity _ _ _ HN) as (Hc & Hn & Hlf & Hent).
  pose proof HN as (Hcpos & _)%New_inv.
  assert (∀ k, lookup_key t0 k = None) as Hempty
    by (intros k; unfold lookup_key; by rewrite Hent).
  destruct (put_all_spec _ _ _ Hwf Hnd Hrun) as (Hwf' & Hlf' & Hl).
  pose proof (put_all_num_keys _ _ _ Hwf Hnd (λ k _, Hempty k) Hrun) as Hsize.
  rewrite Hn, Z.add_0_l in Hsize.
  split_and!.
  - done.
  - intros k v Hkv. apply Search_Some_lookup_key; [done|].
    rewrite Hl. by rewrite (find_key_NoDup k kvs v).
  - destruct (put_all_capacity _ _ _ Hwf Hrun) as (g & Hg & Hcap & Hzero).
    rewrite Hc in Hcap. exists g. split_and!; [done..|].
    intros Hceil. destruct g as [|g]; [|lia]. exfalso.
    set (x := (inject_Z capacity * load_factor)%Q) in *.
    assert (0 < inject_Z capacity)%Q as HcQ by (by rewrite <-(Zlt_Qlt 0)).
    assert (0 < x)%Q as Hx by (by apply Qmult_lt_0_compat).
    assert (x <= inject_Z (Z.of_nat (length kvs)))%Q as Hxn.
    { eapply Qle_trans; [apply Qle_ceiling|]. by rewrite <-Zle_Qle. }
    assert (kvs ≠ []) as Hne.
    { intros ->. simpl in Hxn. by apply Qlt_not_le in Hx. }
    specialize (Hzero eq_refl Hne).
    apply must_grow_false in Hzero; [|by apply wf_capacity_pos].
    rewrite Hsize, Hcap, Hlf', Hlf in Hzero.
    change (2 ^ Z.of_nat 0) with 1 in Hzero. rewrite Z.mul_1_r in Hzero.
    apply (Qlt_not_le _ _ Hzero). apply Qle_shift_div_l; [done|].
    by rewrite Qmult_comm.
  - do 3 eexists. split_and!; try reflexivity.
    repeat (constructor; [reflexivity|]). constructor.
Qed.

Lemma growth_once_threshold_reached_witness :
  ∃ t, put_all {| num_keys_ := 0; load_factor_ := 3 # 4; buckets_ := replicate 4 [] |}
         [(0, "a"); (1, "b"); (6, "c")] = Ok t ∧
       size t = 3 ∧
       Search t 0 = Ok (Some "a") ∧ Search t 1 = Ok (Some "b") ∧
       Search t 6 = Ok (Some "c") ∧
       ∃ g : nat, (1 ≤ g ≤ 3)%nat ∧ capacity t = 4 * 2 ^ Z.of_nat g.
Proof.
  eexists. split; [reflexivity|].
  destruct (growth_once_threshold_reached 4 (3 # 4)
              {| num_keys_ := 0; load_factor_ := 3 # 4; buckets_ := replicate 4 [] |}
              {| num_keys_ := 3; load_factor_ := 3 # 4;
                 buckets_ := [[(0, "a")]; [(1, "b")]; []; []; []; []; [(6, "c")]; []] |}
              [(0, "a"); (1, "b"); (6, "c")])
    as (Hsize & Hsearch & (g & Hg & Hcap & Hone) & _).
  - reflexivity.
  - discriminate.
  - vm_compute. discriminate.
  - reflexivity.
  - apply (bool_decide_unpack _). vm_compute. exact I.
  - reflexivity.
  - split_and!.
    + exact Hsize.
    + apply Hsearch. apply (bool_decide_unpack _). vm_compute. exact I.
    + apply Hsearch. apply (bool_decide_unpack _). vm_compute. exact I.
    + apply Hsearch. apply (bool_decide_unpack _). vm_compute. exact I.
    + exists g. split; [|exact Hcap]. split; [|exact Hg].
      apply Hone. vm_compute. discriminate.
Defined.
